(** * luis-typescript: the LUIS query client of [src/index.ts]

    The module exports one factory, [create], whose result offers the two
    query operations [queryV1] and [queryV1Preview]; both go through the
    private dispatcher [callApi].  The development below embeds that code
    together with the pieces of its host it relies on: Node's legacy [url]
    module, the [request] transport, [JSON.parse], promises and the event
    loop that later runs the transport's callback. *)

From Stdlib Require Import String Ascii ZArith List Lia.
From stdpp Require Import base list strings gmap.

Open Scope string_scope.
Open Scope list_scope.

(** ** Characters and text

    JavaScript strings are modelled by [string]; text outside ASCII is taken
    in its UTF-8 encoding, one [ascii] per byte. *)

Module Chars.

Definition code (c : ascii) : nat := nat_of_ascii c.

Definition between (lo hi : nat) (c : ascii) : bool :=
  (lo <=? code c)%nat && (code c <=? hi)%nat.

Definition is_digit : ascii -> bool := between 48 57.
Definition is_upper : ascii -> bool := between 65 90.
Definition is_lower : ascii -> bool := between 97 122.
Definition is_alnum (c : ascii) : bool := is_digit c || is_upper c || is_lower c.

Definition is_char (c d : ascii) : bool := bool_decide (c = d).

Definition one_of (set : string) (c : ascii) : bool :=
  existsb (is_char c) (list_ascii_of_string set).

Definition lower (c : ascii) : ascii :=
  if is_upper c then ascii_of_nat (code c + 32) else c.

Definition quote : ascii := "034"%char.
Definition backslash : ascii := "092"%char.

Definition hex_digit (n : nat) : ascii :=
  match get n "0123456789ABCDEF" with
  | Some c => c
  | None => "0"%char
  end.

#[global] Arguments is_char : simpl never.
#[global] Arguments one_of : simpl never.
#[global] Arguments is_digit : simpl never.

(** [%XX] with upper-case hexadecimal digits. *)
Definition percent (c : ascii) : string :=
  String "%" (String (hex_digit (code c / 16)) (String (hex_digit (code c mod 16)) "")).

End Chars.

Module Text.

Fixpoint map_chars (f : ascii -> ascii) (s : string) : string :=
  match s with
  | "" => ""
  | String c r => String (f c) (map_chars f r)
  end.

Fixpoint flat_map_chars (f : ascii -> string) (s : string) : string :=
  match s with
  | "" => ""
  | String c r => f c +:+ flat_map_chars f r
  end.

Definition to_lower : string -> string := map_chars Chars.lower.

(** [break_at p s] splits [s] in front of its first character satisfying
    [p]; the second component is empty when there is none. *)
Fixpoint break_at (p : ascii -> bool) (s : string) : string * string :=
  match s with
  | "" => ("", "")
  | String c r =>
      if p c then ("", s)
      else let '(a, b) := break_at p r in (String c a, b)
  end.

(** [break_last p s] splits [s] around its last character satisfying [p],
    which is dropped; [None] when there is none. *)
Fixpoint break_last (p : ascii -> bool) (s : string) : option (string * string) :=
  match s with
  | "" => None
  | String c r =>
      match break_last p r with
      | Some (a, b) => Some (String c a, b)
      | None => if p c then Some ("", r) else None
      end
  end.

Fixpoint all_chars (p : ascii -> bool) (s : string) : bool :=
  match s with
  | "" => true
  | String c r => p c && all_chars p r
  end.

Fixpoint last_char (s : string) : option ascii :=
  match s with
  | "" => None
  | String c "" => Some c
  | String _ r => last_char r
  end.

(** [s] without its prefix [pre]; [None] when it does not start with it. *)
Fixpoint strip_prefix (pre s : string) : option string :=
  match pre with
  | "" => Some s
  | String c pre' =>
      match s with
      | String d s' => if Chars.is_char c d then strip_prefix pre' s' else None
      | "" => None
      end
  end.

Definition non_empty (s : string) : option string :=
  match s with
  | "" => None
  | _ => Some s
  end.

Definition or_empty (o : option string) : string := default "" o.

End Text.

(** ** Node's [querystring] and legacy [url] modules

    [src/index.ts] imports [url] and uses [url.parse] and the [query] and
    [href] properties of the object it returns.  The definitions below
    follow Node's [lib/querystring.js] and [lib/url.js], condensed to URLs
    of the form [scheme://[auth@]host[:port][/path][?search][#hash]]:
    IPv6 literals, IDNA and the automatic escaping of unwise characters are
    left out (neither base endpoint of the client contains any). *)

Module querystring.

(** The characters [querystring.escape] leaves alone. *)
Definition unreserved (c : ascii) : bool :=
  Chars.is_alnum c || Chars.one_of "-_.!~*'()" c.

Definition escape (s : string) : string :=
  Text.flat_map_chars
    (fun c => if unreserved c then String c "" else Chars.percent c) s.

(** [querystring.stringify] of an object whose values are strings: the
    properties in insertion order, as [key=value] joined by [&]. *)
Definition stringify (obj : list (string * string)) : string :=
  String.concat "&"
    (map (fun kv => escape (fst kv) +:+ "=" +:+ escape (snd kv)) obj).

End querystring.

Module url.

(** The [query] property: [null], the text after [?], or an object. *)
Inductive Query : Type :=
  | QueryNull
  | QueryText (s : string)
  | QueryObject (props : list (string * string)).

(** The object returned by [url.parse].  All twelve properties are plain
    data properties, [href] included. *)
Record Url : Type := mkUrl {
  protocol : option string;
  slashes : bool;
  auth : option string;
  host : option string;
  port : option string;
  hostname : option string;
  hash : option string;
  search : option string;
  query : Query;
  pathname : option string;
  path : option string;
  href : string
}.

(** Assignments [uri.query = q] and [this.href = h]. *)
Definition set_query (q : Query) (u : Url) : Url :=
  mkUrl (protocol u) (slashes u) (auth u) (host u) (port u) (hostname u)
        (hash u) (search u) q (pathname u) (path u) (href u).

Definition set_href (h : string) (u : Url) : Url :=
  mkUrl (protocol u) (slashes u) (auth u) (host u) (port u) (hostname u)
        (hash u) (search u) (query u) (pathname u) (path u) h.

Definition slashedProtocol (proto : string) : bool :=
  existsb (String.eqb proto)
    ["http"; "http:"; "https"; "https:"; "ftp"; "ftp:"; "gopher"; "gopher:";
     "file"; "file:"].

Definition ensure_first (c : ascii) (s : string) : string :=
  match s with
  | "" => ""
  | String d _ => if Chars.is_char c d then s else String c s
  end.

Definition ensure_colon (proto : string) : string :=
  match proto with
  | "" => ""
  | _ => match Text.last_char proto with
         | Some ":"%char => proto
         | _ => proto +:+ ":"
         end
  end.

Definition escape_auth (a : string) : string :=
  Text.flat_map_chars
    (fun c => if querystring.unreserved c || Chars.is_char c ":"%char
              then String c "" else Chars.percent c) a.

Definition escape_pathname (p : string) : string :=
  Text.flat_map_chars
    (fun c => if Chars.one_of "?#" c then Chars.percent c else String c "") p.

Definition escape_search (s : string) : string :=
  let '(a, b) := Text.break_at (fun c => Chars.is_char c "#"%char) s in
  match b with
  | "" => a
  | String _ r => a +:+ "%23" +:+ r
  end.

(** [Url.prototype.format]: the text of a URL object, assembled from its
    other properties ([href] and [path] are not read). *)
Definition format (u : Url) : string :=
  let au := match auth u with
            | Some a => match a with "" => "" | _ => escape_auth a +:+ "@" end
            | None => ""
            end in
  let proto := ensure_colon (Text.or_empty (protocol u)) in
  let hst := match Text.non_empty (Text.or_empty (host u)) with
             | Some h => Some (au +:+ h)
             | None =>
                 match Text.non_empty (Text.or_empty (hostname u)) with
                 | Some h =>
                     Some (au +:+ h +:+
                           match Text.non_empty (Text.or_empty (port u)) with
                           | Some p => ":" +:+ p
                           | None => ""
                           end)
                 | None => None
                 end
             end in
  let qs := match query u with
            | QueryObject props => querystring.stringify props
            | _ => ""
            end in
  let srch := match Text.non_empty (Text.or_empty (search u)) with
              | Some s => s
              | None => match qs with "" => "" | _ => "?" +:+ qs end
              end in
  let slashed := slashes u
                 || (match proto with "" => true | _ => slashedProtocol proto end) in
  let hst' := if slashed then "//" +:+ Text.or_empty hst else Text.or_empty hst in
  let pth := Text.or_empty (pathname u) in
  let pth' := if slashed then ensure_first "/"%char pth else pth in
  proto +:+ hst' +:+ escape_pathname pth'
        +:+ escape_search (ensure_first "?"%char srch)
        +:+ ensure_first "#"%char (Text.or_empty (hash u)).

Definition protocol_char (c : ascii) : bool :=
  Chars.is_alnum c || Chars.one_of ".+-" c.

(** The scheme, lower-cased and with its colon, and what follows it. *)
Definition split_protocol (s : string) : option string * string :=
  let '(a, b) := Text.break_at (fun c => negb (protocol_char c)) s in
  match a, b with
  | String _ _, String ":" r => (Some (Text.to_lower a +:+ ":"), r)
  | _, _ => (None, s)
  end.

(** [user:pw@host] into the text before the last [@] and the rest. *)
Definition split_auth (s : string) : option string * string :=
  match Text.break_last (fun c => Chars.is_char c "@"%char) s with
  | Some (a, h) => (Some a, h)
  | None => (None, s)
  end.

(** [host:123] into host name and port. *)
Definition split_port (s : string) : string * option string :=
  match Text.break_last (fun c => Chars.is_char c ":"%char) s with
  | Some (h, p) =>
      if Text.all_chars Chars.is_digit p then (h, Text.non_empty p) else (s, None)
  | None => (s, None)
  end.

(** [url.parse(urlStr)], called with one argument: the query string is
    not decoded into an object, and [href] is computed once, from the
    freshly parsed object. *)
Definition parse (urlStr : string) : Url :=
  let '(proto, rest) := split_protocol urlStr in
  let '(sl, rest) := match Text.strip_prefix "//" rest with
                     | Some r => (true, r)
                     | None => (false, rest)
                     end in
  let '(hostpart, rest) :=
    if sl then Text.break_at (Chars.one_of "/?#") rest else ("", rest) in
  let '(au, hostport) := split_auth hostpart in
  let '(hname, prt) := split_port hostport in
  let hname := Text.to_lower hname in
  let '(rest, hsh) := Text.break_at (fun c => Chars.is_char c "#"%char) rest in
  let '(rest, srch) := Text.break_at (fun c => Chars.is_char c "?"%char) rest in
  let pth := match Text.non_empty rest with
             | Some p => Some p
             | None =>
                 match Text.non_empty hname with
                 | Some _ =>
                     if slashedProtocol (Text.or_empty proto) then Some "/" else None
                 | None => None
                 end
             end in
  let u :=
    {| protocol := proto;
       slashes := sl;
       auth := au;
       host := match hname with
               | "" => None
               | _ => Some (hname +:+ match prt with
                                      | Some p => ":" +:+ p
                                      | None => ""
                                      end)
               end;
       port := prt;
       hostname := Text.non_empty hname;
       hash := Text.non_empty hsh;
       search := Text.non_empty srch;
       query := match srch with
                | "" => QueryNull
                | String _ q => QueryText q
                end;
       pathname := pth;
       path := match pth, srch with
               | None, "" => None
               | _, _ => Some (Text.or_empty pth +:+ srch)
               end;
       href := "" |} in
  set_href (format u) u.

End url.

(** ** [JSON.parse]

    The values [JSON.parse] can produce and a recursive-descent reading of
    the JSON grammar (ECMA-404).  A number keeps its literal: the rounding
    to an IEEE double is not modelled.  An object keeps its members in the
    order of their first occurrence, a repeated key overwriting the earlier
    value, as property assignment does. *)

Module JSON.

#[local] Unset Elimination Schemes.

Inductive value : Type :=
  | Null
  | Bool (b : bool)
  | Number (literal : string)
  | Str (s : string)
  | Array (elements : list value)
  | Object (members : list (string * value)).

#[local] Set Elimination Schemes.

Definition is_ws : ascii -> bool :=
  Chars.one_of (String "032" (String "009" (String "010" (String "013" "")))).

#[global] Arguments is_ws : simpl never.

Fixpoint skip_ws (s : string) : string :=
  match s with
  | String c r => if is_ws c then skip_ws r else s
  | "" => ""
  end.

(** [s] without its first character, when that is [c]. *)
Definition expect (c : ascii) (s : string) : option string :=
  match s with
  | String d r => if Chars.is_char d c then Some r else None
  | "" => None
  end.

(** *** Numbers

    An optional minus sign; [0] or a digit sequence without leading zero;
    an optional fraction; an optional exponent.  Each part returns its text
    and what follows it. *)

Definition digits (s : string) : string * string :=
  Text.break_at (fun c => negb (Chars.is_digit c)) s.

Definition minus (s : string) : string * string :=
  match expect "-" s with
  | Some r => ("-", r)
  | None => ("", s)
  end.

Definition integer (s : string) : option (string * string) :=
  let '(d, r) := digits s in
  match d with
  | "" => None
  | String c "" => Some (d, r)
  | String c _ => if Chars.is_char c "0" then None else Some (d, r)
  end.

Definition fraction (s : string) : option (string * string) :=
  match expect "." s with
  | Some r =>
      let '(d, r') := digits r in
      match d with
      | "" => None
      | _ => Some ("." +:+ d, r')
      end
  | None => Some ("", s)
  end.

Definition exponent (s : string) : option (string * string) :=
  match s with
  | String e r =>
      if Chars.one_of "eE" e then
        let '(sg, r1) := match r with
                         | String c t =>
                             if Chars.one_of "+-" c then (String c "", t) else ("", r)
                         | "" => ("", r)
                         end in
        let '(d, r2) := digits r1 in
        match d with
        | "" => None
        | _ => Some (String e sg +:+ d, r2)
        end
      else Some ("", s)
  | "" => Some ("", s)
  end.

Definition number (s : string) : option (string * string) :=
  let '(sign, r) := minus s in
  '(int, r) ← integer r;
  '(frac, r) ← fraction r;
  '(exp, r) ← exponent r;
  Some (sign +:+ int +:+ frac +:+ exp, r).

(** *** Strings *)

(** The raw text of a string literal after its opening quote, up to its
    closing quote, and what follows that quote.  A backslash protects the
    character after it. *)
Fixpoint scan (s : string) : option (string * string) :=
  match s with
  | "" => None
  | String c r =>
      if Chars.is_char c Chars.quote then Some ("", r)
      else if Chars.is_char c Chars.backslash then
        match r with
        | String e r' => '(raw, rest) ← scan r'; Some (String c (String e raw), rest)
        | "" => None
        end
      else '(raw, rest) ← scan r; Some (String c raw, rest)
  end.

Definition hex_value (c : ascii) : option N :=
  if Chars.is_digit c then Some (N_of_ascii c - 48)%N
  else if Chars.between 65 70 c then Some (N_of_ascii c - 55)%N
  else if Chars.between 97 102 c then Some (N_of_ascii c - 87)%N
  else None.

Definition hex4 (a b c d : ascii) : option N :=
  x ← hex_value a; y ← hex_value b; z ← hex_value c; w ← hex_value d;
  Some (((x * 16 + y) * 16 + z) * 16 + w)%N.

Definition byte (n : N) : string := String (ascii_of_N n) "".

(** UTF-8 of a code point. *)
Definition utf8 (n : N) : string :=
  (if n <? 128 then byte n
   else if n <? 2048 then byte (192 + n / 64) +:+ byte (128 + n mod 64)
   else if n <? 65536 then
     byte (224 + n / 4096) +:+ byte (128 + n / 64 mod 64) +:+ byte (128 + n mod 64)
   else
     byte (240 + n / 262144) +:+ byte (128 + n / 4096 mod 64)
       +:+ byte (128 + n / 64 mod 64) +:+ byte (128 + n mod 64))%N.

Definition is_high_surrogate (n : N) : bool := (55296 <=? n)%N && (n <=? 56319)%N.
Definition is_low_surrogate (n : N) : bool := (56320 <=? n)%N && (n <=? 57343)%N.

Definition simple_escape (c : ascii) : option ascii :=
  if Chars.is_char c Chars.quote then Some Chars.quote
  else if Chars.is_char c Chars.backslash then Some Chars.backslash
  else if Chars.is_char c "/" then Some "/"%char
  else if Chars.is_char c "b" then Some "008"%char
  else if Chars.is_char c "f" then Some "012"%char
  else if Chars.is_char c "n" then Some "010"%char
  else if Chars.is_char c "r" then Some "013"%char
  else if Chars.is_char c "t" then Some "009"%char
  else None.

(** The second half of a surrogate pair, written [\uXXXX], at the head of
    [s]. *)
Definition low_surrogate (s : string) : option (N * string) :=
  match s with
  | String b (String u (String l1 (String l2 (String l3 (String l4 r))))) =>
      if Chars.is_char b Chars.backslash && Chars.is_char u "u" then
        m ← hex4 l1 l2 l3 l4;
        if is_low_surrogate m then Some (m, r) else None
      else None
  | _ => None
  end.

(** The characters a raw literal denotes; [None] for a control character
    or a malformed escape. *)
Fixpoint unescape (raw : string) : option string :=
  match raw with
  | "" => Some ""
  | String c r =>
      if Chars.is_char c Chars.backslash then
        match r with
        | String e r1 =>
            if Chars.is_char e "u" then
              match r1 with
              | String h1 (String h2 (String h3 (String h4 r2))) =>
                  n ← hex4 h1 h2 h3 h4;
                  match r2 with
                  | String _ (String _ (String _ (String _ (String _ (String _ r3))))) =>
                      match low_surrogate r2 with
                      | Some (m, _) =>
                          if is_high_surrogate n then
                            t ← unescape r3;
                            Some (utf8 (65536 + (n - 55296) * 1024 + (m - 56320))%N +:+ t)
                          else t ← unescape r2; Some (utf8 n +:+ t)
                      | None => t ← unescape r2; Some (utf8 n +:+ t)
                      end
                  | _ => t ← unescape r2; Some (utf8 n +:+ t)
                  end
              | _ => None
              end
            else ch ← simple_escape e; t ← unescape r1; Some (String ch t)
        | "" => None
        end
      else if (Chars.code c <? 32)%nat then None
      else t ← unescape r; Some (String c t)
  end.

(** A string literal after its opening quote. *)
Definition string_chars (s : string) : option (string * string) :=
  '(raw, rest) ← scan s;
  x ← unescape raw;
  Some (x, rest).

(** *** Values *)

(** [obj[k] = v] on the member list. *)
Fixpoint set_member (k : string) (v : value) (ms : list (string * value))
  : list (string * value) :=
  match ms with
  | [] => [(k, v)]
  | (k', v') :: r =>
      if String.eqb k k' then (k', v) :: r else (k', v') :: set_member k v r
  end.

Definition make_object (ms : list (string * value)) : value :=
  Object (fold_left (fun acc kv => set_member (fst kv) (snd kv) acc) ms []).

Definition keyword (s : string) : option (value * string) :=
  match Text.strip_prefix "null" s, Text.strip_prefix "true" s,
        Text.strip_prefix "false" s with
  | Some r, _, _ => Some (Null, r)
  | _, Some r, _ => Some (Bool true, r)
  | _, _, Some r => Some (Bool false, r)
  | _, _, _ => None
  end.

(** After an element and white space: [,] and the further elements, or the
    closing bracket. *)
Definition sequel {A : Type} (close : ascii) (more : string -> option (list A * string))
    (x : A) (s : string) : option (list A * string) :=
  match skip_ws s with
  | "" => None
  | String c r =>
      if Chars.is_char c "," then '(xs, r') ← more r; Some (x :: xs, r')
      else if Chars.is_char c close then Some ([x], r)
      else None
  end.

(** One JSON value at the head of [s], after optional white space.  The
    three parsers call each other on what is left of the text; [fuel]
    bounds the depth of these calls. *)
Fixpoint parse_value (fuel : nat) (s : string) : option (value * string) :=
  match fuel with
  | O => None
  | S n =>
      match skip_ws s with
      | "" => None
      | String c r =>
          if Chars.is_char c Chars.quote then
            '(x, r') ← string_chars r; Some (Str x, r')
          else if Chars.is_char c "[" then
            match expect "]" (skip_ws r) with
            | Some r' => Some (Array [], r')
            | None => '(xs, r') ← parse_elements n r; Some (Array xs, r')
            end
          else if Chars.is_char c "{" then
            match expect "}" (skip_ws r) with
            | Some r' => Some (Object [], r')
            | None => '(ms, r') ← parse_members n r; Some (make_object ms, r')
            end
          else if Chars.is_char c "-" || Chars.is_digit c then
            '(lit, r') ← number (String c r); Some (Number lit, r')
          else keyword (String c r)
      end
  end
with parse_elements (fuel : nat) (s : string) : option (list value * string) :=
  match fuel with
  | O => None
  | S n =>
      '(x, r) ← parse_value n s;
      sequel "]" (parse_elements n) x r
  end
with parse_members (fuel : nat) (s : string)
  : option (list (string * value) * string) :=
  match fuel with
  | O => None
  | S n =>
      r ← expect Chars.quote (skip_ws s);
      '(k, r) ← string_chars r;
      r ← expect ":" (skip_ws r);
      '(x, r) ← parse_value n r;
      sequel "}" (parse_members n) (k, x) r
  end.

(** A parser calls another one on no more than the text it was given, and
    calls itself after at least two characters, so the depth of the calls
    stays below twice the length of the text plus two (lemma
    [parse_value_fuel]). *)
Definition enough_fuel (text : string) : nat := 2 * String.length text + 2.

(** [JSON.parse(text)]: the value, or [None] where the built-in throws a
    [SyntaxError]. *)
Definition parse (text : string) : option value :=
  '(v, r) ← parse_value (enough_fuel text) text;
  match skip_ws r with
  | "" => Some v
  | _ => None
  end.

(** A parser that succeeds leaves less text than it was given. *)
Definition consumes {A : Type} (parser : string -> option (A * string)) : Prop :=
  ∀ s x r, parser s = Some (x, r) → (String.length r < String.length s)%nat.

End JSON.

(** ** The JavaScript host: exceptions, promises, transport

    What the code of [src/index.ts] runs on.  The [World] holds the promises
    created so far, the requests handed to the transport, which of them have
    had their callback invoked, and the exceptions no frame caught. *)

(** A thrown value: [new Error(message)] and the like. *)
Record JSError : Type := mkError {
  err_name : string;
  err_message : string
}.

Definition Error (message : string) : JSError := mkError "Error" message.
Definition SyntaxError (message : string) : JSError := mkError "SyntaxError" message.

Definition PromiseId : Type := nat.

Inductive PromiseState : Type :=
  | Pending
  | Fulfilled (value : JSON.value)
  | Rejected (reason : JSError).

(** The only function value the module ever hands out: the arrow function
    [(error, response, body) => ...] of [callApi], closed over the
    [resolve] and [reject] of the promise it was created in. *)
Inductive Callback : Type :=
  | ResponseCallback (promise : PromiseId).

Definition cb_promise (cb : Callback) : PromiseId :=
  match cb with
  | ResponseCallback p => p
  end.

(** The options object of [request]; [{}] is [no_options]. *)
Record RequestOptions : Type := mkOptions {
  opt_method : option string;
  opt_headers : list (string * string)
}.

Definition no_options : RequestOptions := mkOptions None [].

Record HttpRequest : Type := mkRequest {
  req_method : string;
  req_uri : string;
  req_headers : list (string * string);
  req_callback : Callback
}.

(** The [response] argument of the transport's callback. *)
Record IncomingMessage : Type := mkResponse {
  statusCode : Z;
  statusMessage : string;
  headers : list (string * string)
}.

Record World : Type := mkWorld {
  promises : list PromiseState;
  network : list HttpRequest;
  completed : gset nat;
  uncaught : list JSError
}.

Definition initial : World := mkWorld [] [] ∅ [].

Definition set_promises (ps : list PromiseState) (w : World) : World :=
  mkWorld ps (network w) (completed w) (uncaught w).

Definition add_request (rq : HttpRequest) (w : World) : World :=
  mkWorld (promises w) (network w ++ [rq]) (completed w) (uncaught w).

Definition mark_completed (r : nat) (w : World) : World :=
  mkWorld (promises w) (network w) ({[r]} ∪ completed w) (uncaught w).

Definition add_uncaught (e : JSError) (w : World) : World :=
  mkWorld (promises w) (network w) (completed w) (uncaught w ++ [e]).

(** Synchronous code: it returns or throws, and changes the world. *)
Inductive Completion (A : Type) : Type :=
  | Normal (a : A)
  | Throw (e : JSError).

Arguments Normal {A} a.
Arguments Throw {A} e.

Definition JS (A : Type) : Type := World -> Completion A * World.

#[export] Instance JS_ret : MRet JS := fun A a w => (Normal a, w).

#[export] Instance JS_bind : MBind JS := fun A B f m w =>
  match m w with
  | (Normal a, w') => f a w'
  | (Throw e, w') => (Throw e, w')
  end.

Definition throw {A : Type} (e : JSError) : JS A := fun w => (Throw e, w).

(** *** Promises *)

(** The resolving functions of promise [p]: the first call settles it, any
    later call does nothing. *)
Definition settle (p : PromiseId) (s : PromiseState) : JS unit := fun w =>
  match promises w !! p with
  | Some Pending => (Normal (), set_promises (<[p := s]> (promises w)) w)
  | _ => (Normal (), w)
  end.

(** [JSON.parse] never yields a thenable, so [resolve] fulfils. *)
Definition resolve (p : PromiseId) (v : JSON.value) : JS unit := settle p (Fulfilled v).
Definition reject (p : PromiseId) (e : JSError) : JS unit := settle p (Rejected e).

(** [new Promise(executor)]: the executor runs at once, with the resolving
    functions of the new promise; if it throws, the promise is rejected. *)
Definition new_Promise (executor : PromiseId -> JS unit) : JS PromiseId := fun w =>
  let p := length (promises w) in
  match executor p (set_promises (promises w ++ [Pending]) w) with
  | (Normal _, w') => (Normal p, w')
  | (Throw e, w') => (Normal p, snd (reject p e w'))
  end.

(** *** The transport *)

(** [request(uri, options, callback)] of the [request] package: the request is
    handed to the network, with method [GET] unless the options say
    otherwise; [callback] is kept for the completion of the exchange. *)
Definition request (uri : string) (options : RequestOptions) (callback : Callback)
  : JS unit := fun w =>
  (Normal (),
   add_request
     (mkRequest (default "GET" (opt_method options)) uri (opt_headers options) callback)
     w).

(** How an exchange ends: the transport fails, which it reports with an
    error object, or a response arrives. *)
Inductive Outcome : Type :=
  | TransportError (error : JSError)
  | Response (response : IncomingMessage) (body : string).

(** The arguments [request] passes to its callback: [callback(error)], or
    [callback(null, response, body)]. *)
Definition callback_arguments (o : Outcome)
  : option JSError * option IncomingMessage * option string :=
  match o with
  | TransportError e => (Some e, None, None)
  | Response rsp b => (None, Some rsp, Some b)
  end.

(** [ToString] on a string or [undefined]. *)
Definition ToString (x : option string) : string := default "undefined" x.

(** [JSON.parse(text)] as an operation of the host; the message of the
    [SyntaxError] depends on the engine and is left generic. *)
Definition JSON_parse (text : string) : JS JSON.value :=
  match JSON.parse text with
  | Some v => mret v
  | None => throw (SyntaxError "Unexpected token in JSON")
  end.

(** ** The code of [src/index.ts] *)

Module Version.

(** [enum Version { None, V1, V1Preview }] *)
Inductive t : Type := None | V1 | V1Preview.

(** The reverse mapping [Version[version]]. *)
Definition name (version : t) : string :=
  match version with
  | None => "None"
  | V1 => "V1"
  | V1Preview => "V1Preview"
  end.

End Version.

(** The [switch] of [callApi]. *)
Definition select_baseUri (version : Version.t) : JS string :=
  match version with
  | Version.V1 => mret "https://api.projectoxford.ai/luis/v1/application"
  | Version.V1Preview => mret "https://api.projectoxford.ai/luis/v1/application/preview"
  | _ =>
      throw (Error ("The specified version '" +:+ Version.name version
                      +:+ "' is not supported."))
  end.

(** The local [uri] of [callApi] once its [query] has been assigned. *)
Definition build_uri (baseUri query applicationId subscriptionKey : string) : url.Url :=
  let uri := url.parse baseUri in
  url.set_query
    (url.QueryObject
       [("id", applicationId); ("subscription-key", subscriptionKey); ("q", query)])
    uri.

(** The callback [callApi] gives to [request]. *)
Definition run_callback (cb : Callback)
    (error : option JSError) (response : option IncomingMessage) (body : option string)
  : JS unit :=
  match cb with
  | ResponseCallback p =>
      match error with
      | Some e => reject p e
      | Datatypes.None => v ← JSON_parse (ToString body); resolve p v
      end
  end.

Definition callApi (query : string) (version : Version.t)
    (applicationId subscriptionKey : string) : JS PromiseId :=
  baseUri ← select_baseUri version;
  let uri := build_uri baseUri query applicationId subscriptionKey in
  new_Promise (fun p => request (url.href uri) no_options (ResponseCallback p)).

Record Application : Type := mkApplication {
  queryV1 : string -> JS PromiseId;
  queryV1Preview : string -> JS PromiseId
}.

Definition create (applicationId subscriptionKey : string) : JS Application :=
  mret {| queryV1 := fun query =>
            callApi query Version.V1 applicationId subscriptionKey;
          queryV1Preview := fun query =>
            callApi query Version.V1Preview applicationId subscriptionKey |}.

(** ** The event loop

    Between two events the world is at rest.  An event is either a client
    using the public interface, [create(id, key).queryV1(q)] or
    [create(id, key).queryV1Preview(q)], or the transport finishing an
    exchange and invoking the callback of that request, once.  An exception
    leaving the callback has no frame of this module above it and ends up
    uncaught. *)

Definition client_call (applicationId subscriptionKey : string) (preview : bool)
    (query : string) : JS PromiseId :=
  app ← create applicationId subscriptionKey;
  if preview then queryV1Preview app query else queryV1 app query.

Definition complete (r : nat) (o : Outcome) (w : World) : World :=
  match network w !! r with
  | Some rq =>
      if decide (r ∈ completed w) then w
      else
        let '(error, response, body) := callback_arguments o in
        match run_callback (req_callback rq) error response body (mark_completed r w) with
        | (Normal _, w') => w'
        | (Throw e, w') => add_uncaught e w'
        end
  | Datatypes.None => w
  end.

Inductive Event : Type :=
  | Calls (applicationId subscriptionKey : string) (preview : bool) (query : string)
  | Completes (r : nat) (o : Outcome).

Definition step (w : World) (ev : Event) : World :=
  match ev with
  | Calls a k preview q => snd (client_call a k preview q w)
  | Completes r o => complete r o w
  end.

Definition run (events : list Event) (w : World) : World := fold_left step events w.

(** [r] is not completed by any event of the list. *)
Definition leaves_open (r : nat) (events : list Event) : bool :=
  forallb (fun ev => match ev with
                     | Completes r' _ => negb (r' =? r)%nat
                     | Calls _ _ _ _ => true
                     end) events.

(** What a promise of [callApi] becomes once its exchange has ended in [o],
    as the callback runs: a body that does not parse makes [JSON.parse]
    throw before [resolve] is reached. *)
Definition outcome_state (o : Outcome) : PromiseState :=
  match o with
  | TransportError e => Rejected e
  | Response _ body =>
      match JSON.parse body with
      | Some v => Fulfilled v
      | Datatypes.None => Pending
      end
  end.

(** ** Vocabulary of the statements *)

Definition endpoint (preview : bool) : string :=
  if preview
  then "https://api.projectoxford.ai/luis/v1/application/preview"
  else "https://api.projectoxford.ai/luis/v1/application".

Definition version_of (preview : bool) : Version.t :=
  if preview then Version.V1Preview else Version.V1.

(** The world after the callback of an open request has run. *)
Definition after_callback (p : PromiseId) (o : Outcome) (w : World) : World :=
  match o with
  | TransportError e => snd (reject p e w)
  | Response _ body =>
      match JSON.parse body with
      | Some v => snd (resolve p v w)
      | Datatypes.None => add_uncaught (SyntaxError "Unexpected token in JSON") w
      end
  end.

(** Completed requests exist, and every callback belongs to a promise that
    exists. *)
Record wf (w : World) : Prop := mk_wf {
  wf_completed : ∀ r, r ∈ completed w → r < length (network w);
  wf_callbacks : ∀ r rq,
    network w !! r = Some rq → cb_promise (req_callback rq) < length (promises w)
}.

(** Request [r] is under way and is the one exchange that can settle the
    pending promise [p]. *)
Record owns (w : World) (r : nat) (p : PromiseId) : Prop := mk_owns {
  owns_request : ∃ rq, network w !! r = Some rq ∧ cb_promise (req_callback rq) = p;
  owns_open : r ∉ completed w;
  owns_pending : promises w !! p = Some Pending;
  owns_only : ∀ r' rq',
    network w !! r' = Some rq' → cb_promise (req_callback rq') = p → r' = r
}.

(** Promise [p] is in state [s] and no exchange that could touch it is
    still under way. *)
Record frozen (w : World) (p : PromiseId) (s : PromiseState) : Prop := mk_frozen {
  frozen_state : promises w !! p = Some s;
  frozen_closed : ∀ r rq,
    network w !! r = Some rq → cb_promise (req_callback rq) = p → r ∈ completed w
}.

(** The world reached from the initial one by a list of events. *)
Definition reached (history : list Event) : World := run history initial.

(** The index the next request and the next promise will get. *)
Definition next_request (w : World) : nat := length (network w).
Definition next_promise (w : World) : PromiseId := length (promises w).

(** The URL the three parameters of a call denote: [url.format] of the
    object [callApi] builds. *)
Definition intended_uri (preview : bool) (q a k : string) : string :=
  url.format (build_uri (endpoint preview) q a k).

Definition quoted (s : string) : string := String Chars.quote (s +:+ String Chars.quote "").

(** A body as the service sends it with status 401. *)
Definition access_denied_body : string :=
  "{ " +:+ quoted "statusCode" +:+ ": 401, " +:+ quoted "message" +:+ ": "
       +:+ quoted "Access denied due to invalid subscription key." +:+ " }".

Definition access_denied_value : JSON.value :=
  JSON.Object
    [("statusCode", JSON.Number "401");
     ("message", JSON.Str "Access denied due to invalid subscription key.")].

(** The request a call hands to the transport, for the promise [p] it
    creates: a function of the operation, the query and the credentials. *)
Definition request_of (preview : bool) (q a k : string) (p : PromiseId) : HttpRequest :=
  mkRequest "GET" (url.href (build_uri (endpoint preview) q a k)) []
            (ResponseCallback p).

(** *** Vocabulary of the further properties *)

(** The calls among a list of events. *)
Definition is_call (ev : Event) : bool :=
  match ev with
  | Calls _ _ _ _ => true
  | Completes _ _ => false
  end.

Definition count_calls (events : list Event) : nat :=
  length (List.filter is_call events).

(** The exchanges of a list of events that end with a body [JSON.parse]
    does not accept. *)
Definition is_unparseable (ev : Event) : bool :=
  match ev with
  | Completes _ (Response _ body) =>
      match JSON.parse body with
      | Some _ => false
      | Datatypes.None => true
      end
  | _ => false
  end.

Definition count_unparseable (events : list Event) : nat :=
  length (List.filter is_unparseable events).

(** A [GET] without headers to one of the two endpoints. *)
Definition plain_get (rq : HttpRequest) : Prop :=
  req_method rq = "GET" ∧ req_headers rq = []
  ∧ (req_uri rq = endpoint false ∨ req_uri rq = endpoint true).

(** There are as many promises as requests, and the callback of the
    request with index [r] holds the resolving functions of the promise
    with index [r]. *)
Definition paired (w : World) : Prop :=
  length (promises w) = length (network w)
  ∧ req_callback <$> network w = ResponseCallback <$> seq 0 (length (network w)).

(** What the callback of promise [p] does to the promises when its
    exchange ends in [o]. *)
Definition apply_outcome (p : PromiseId) (o : Outcome) (ps : list PromiseState)
  : list PromiseState :=
  match ps !! p with
  | Some Pending => <[p := outcome_state o]> ps
  | _ => ps
  end.

(** What an observer of the promises and of the network can see of a
    world: everything but the uncaught exceptions. *)
Definition visible (w : World) : list PromiseState * list HttpRequest * gset nat :=
  (promises w, network w, completed w).

(** The end of the exchange [r] in [o], on what is visible of a world in
    which requests and promises are paired. *)
Definition complete_visible (r : nat) (o : Outcome)
    (v : list PromiseState * list HttpRequest * gset nat)
  : list PromiseState * list HttpRequest * gset nat :=
  let '(ps, n, c) := v in
  if decide (is_Some (n !! r) ∧ r ∉ c)
  then (apply_outcome r o ps, n, {[r]} ∪ c)
  else v.

(** ** The JSON reader never runs short of fuel *)

Module JSONFacts.

Import JSON.

#[local] Open Scope nat_scope.

#[local] Abbreviation len := String.length.

Lemma skip_ws_length (s : string) : len (skip_ws s) ≤ len s.
Proof.
  induction s as [|c r IH]; cbn; [lia|].
  destruct (is_ws c); cbn; lia.
Qed.

Lemma expect_length (c : ascii) (s r : string) :
  expect c s = Some r → len s = S (len r).
Proof.
  destruct s as [|d s']; cbn; [discriminate|].
  destruct (Chars.is_char d c); [|discriminate].
  by intros [= ->].
Qed.

Lemma break_at_length (p : ascii -> bool) (s a b : string) :
  Text.break_at p s = (a, b) → len a + len b = len s.
Proof.
  revert a b. induction s as [|c r IH]; intros a b; cbn.
  - by intros [= <- <-].
  - destruct (p c); [by intros [= <- <-]|].
    destruct (Text.break_at p r) as [a' b'] eqn:Hr. intros [= <- <-].
    cbn. specialize (IH a' b' eq_refl). lia.
Qed.

Lemma strip_prefix_length (pre s r : string) :
  Text.strip_prefix pre s = Some r → len s = len pre + len r.
Proof.
  revert s. induction pre as [|c pre IH]; intros s; cbn.
  - by intros [= ->].
  - destruct s as [|d s']; [discriminate|].
    destruct (Chars.is_char c d); [|discriminate].
    intros H. apply IH in H. cbn. lia.
Qed.

Lemma scan_length_bounded (n : nat) (s raw rest : string) :
  len s ≤ n → scan s = Some (raw, rest) → len rest < len s.
Proof.
  revert s raw rest. induction n as [|n IH]; intros s raw rest Hn.
  - destruct s; [discriminate|cbn in Hn; lia].
  - destruct s as [|c r]; [discriminate|]. cbn in Hn. cbn.
    destruct (Chars.is_char c Chars.quote); [intros [= <- <-]; lia|].
    destruct (Chars.is_char c Chars.backslash).
    + destruct r as [|e r']; [discriminate|]. cbn in Hn.
      destruct (scan r') as [[raw' rest']|] eqn:Hr'; [|discriminate].
      cbn. intros [= <- <-].
      apply IH in Hr'; cbn; lia.
    + destruct (scan r) as [[raw' rest']|] eqn:Hr; [|discriminate].
      cbn. intros [= <- <-].
      apply IH in Hr; lia.
Qed.

Lemma string_chars_length (s x rest : string) :
  string_chars s = Some (x, rest) → len rest < len s.
Proof.
  unfold string_chars.
  destruct (scan s) as [[raw rest']|] eqn:Hs; [|discriminate].
  cbn. destruct (unescape raw); [|discriminate].
  cbn. intros [= <- <-]. by eapply scan_length_bounded.
Qed.

Lemma integer_length (s d r : string) :
  integer s = Some (d, r) → len r < len s.
Proof.
  unfold integer, digits.
  destruct (Text.break_at _ s) as [d' r'] eqn:Hb.
  apply break_at_length in Hb.
  destruct d' as [|c [|c' d'']]; [discriminate| |].
  - intros [= <- <-]. cbn in Hb. lia.
  - destruct (Chars.is_char c "0"); [discriminate|].
    intros [= <- <-]. cbn in Hb. lia.
Qed.

Lemma fraction_length (s d r : string) :
  fraction s = Some (d, r) → len r ≤ len s.
Proof.
  unfold fraction, digits.
  destruct (expect "." s) as [r0|] eqn:He; [|by intros [= <- <-]].
  apply expect_length in He.
  destruct (Text.break_at _ r0) as [d' r'] eqn:Hb.
  apply break_at_length in Hb.
  destruct d'; [discriminate|]. intros [= <- <-]. lia.
Qed.

Lemma exponent_length (s d r : string) :
  exponent s = Some (d, r) → len r ≤ len s.
Proof.
  unfold exponent, digits.
  destruct s as [|e r0]; [by intros [= <- <-]|].
  destruct (Chars.one_of "eE" e); [|by intros [= <- <-]].
  destruct (match r0 with
            | "" => ("", r0)
            | String c t => if Chars.one_of "+-" c then (String c "", t) else ("", r0)
            end) as [sg r1] eqn:Hsg.
  assert (len r1 ≤ len r0) as Hr1.
  { destruct r0 as [|c t]; [by injection Hsg as <- <-|].
    destruct (Chars.one_of "+-" c); injection Hsg as <- <-; cbn; lia. }
  destruct (Text.break_at _ r1) as [d' r'] eqn:Hb.
  apply break_at_length in Hb.
  destruct d'; [discriminate|]. intros [= <- <-]. cbn. lia.
Qed.

Lemma number_length (s lit r : string) :
  number s = Some (lit, r) → len r < len s.
Proof.
  unfold number, minus.
  assert (∀ r0, match expect "-" s with
                | Some r => ("-", r)
                | None => ("", s)
                end = r0 → len (snd r0) ≤ len s) as Hm.
  { intros r0 <-. destruct (expect "-" s) as [r1|] eqn:He; cbn; [|lia].
    apply expect_length in He. lia. }
  destruct (match expect "-" s with
            | Some r => ("-", r)
            | None => ("", s)
            end) as [sign r0] eqn:H0.
  specialize (Hm _ eq_refl). cbn in Hm.
  destruct (integer r0) as [[int r1]|] eqn:H1; [|discriminate]. cbn.
  destruct (fraction r1) as [[frac r2]|] eqn:H2; [|discriminate]. cbn.
  destruct (exponent r2) as [[exp r3]|] eqn:H3; [|discriminate]. cbn.
  intros [= <- <-].
  apply integer_length in H1. apply fraction_length in H2.
  apply exponent_length in H3. lia.
Qed.

Lemma keyword_length (s : string) (v : value) (r : string) :
  keyword s = Some (v, r) → len r < len s.
Proof.
  unfold keyword.
  destruct (Text.strip_prefix "null" s) as [r1|] eqn:H1.
  { intros [= <- <-]. apply strip_prefix_length in H1. cbn in H1. lia. }
  destruct (Text.strip_prefix "true" s) as [r2|] eqn:H2.
  { intros [= <- <-]. apply strip_prefix_length in H2. cbn in H2. lia. }
  destruct (Text.strip_prefix "false" s) as [r3|] eqn:H3; [|discriminate].
  intros [= <- <-]. apply strip_prefix_length in H3. cbn in H3. lia.
Qed.

Lemma parse_value_S (n : nat) (s : string) :
  parse_value (S n) s =
    match skip_ws s with
    | "" => None
    | String c r =>
        if Chars.is_char c Chars.quote then
          '(x, r') ← string_chars r; Some (Str x, r')
        else if Chars.is_char c "[" then
          match expect "]" (skip_ws r) with
          | Some r' => Some (Array [], r')
          | None => '(xs, r') ← parse_elements n r; Some (Array xs, r')
          end
        else if Chars.is_char c "{" then
          match expect "}" (skip_ws r) with
          | Some r' => Some (Object [], r')
          | None => '(ms, r') ← parse_members n r; Some (make_object ms, r')
          end
        else if Chars.is_char c "-" || Chars.is_digit c then
          '(lit, r') ← number (String c r); Some (Number lit, r')
        else keyword (String c r)
    end.
Proof. reflexivity. Qed.

Lemma parse_elements_S (n : nat) (s : string) :
  parse_elements (S n) s =
    '(x, r) ← parse_value n s; sequel "]" (parse_elements n) x r.
Proof. reflexivity. Qed.

Lemma parse_members_S (n : nat) (s : string) :
  parse_members (S n) s =
    r ← expect Chars.quote (skip_ws s);
    '(k, r) ← string_chars r;
    r ← expect ":" (skip_ws r);
    '(x, r) ← parse_value n r;
    sequel "}" (parse_members n) (k, x) r.
Proof. reflexivity. Qed.

Lemma sequel_length {A : Type} (close : ascii) (more : string -> option (list A * string))
    (x : A) (s : string) (xs : list A) (r : string) :
  consumes more → sequel close more x s = Some (xs, r) → S (len r) ≤ len s.
Proof.
  intros Hmore. unfold sequel.
  pose proof (skip_ws_length s) as Hs.
  destruct (skip_ws s) as [|c r0]; [discriminate|]. cbn in Hs.
  destruct (Chars.is_char c ",").
  - destruct (more r0) as [[xs' r']|] eqn:Hm; [|discriminate].
    cbn. intros [= <- <-]. apply Hmore in Hm. lia.
  - destruct (Chars.is_char c close); [|discriminate].
    intros [= <- <-]. lia.
Qed.

Lemma parsers_consume (n : nat) :
  consumes (parse_value n) ∧ consumes (parse_elements n) ∧ consumes (parse_members n).
Proof.
  induction n as [|n (IHv & IHe & IHm)]; [by repeat split; intros s x r [=]|].
  repeat split; intros s x r.
  - rewrite parse_value_S.
    pose proof (skip_ws_length s) as Hs.
    destruct (skip_ws s) as [|c r0]; [discriminate|]. cbn in Hs.
    destruct (Chars.is_char c Chars.quote).
    { destruct (string_chars r0) as [[x' r']|] eqn:H; [|discriminate].
      cbn. intros [= <- <-]. apply string_chars_length in H. lia. }
    destruct (Chars.is_char c "[").
    { pose proof (skip_ws_length r0) as Hr0.
      destruct (expect "]" (skip_ws r0)) as [r'|] eqn:He.
      - intros [= <- <-]. apply expect_length in He. lia.
      - destruct (parse_elements n r0) as [[xs r']|] eqn:H; [|discriminate].
        cbn. intros [= <- <-]. apply IHe in H. lia. }
    destruct (Chars.is_char c "{").
    { pose proof (skip_ws_length r0) as Hr0.
      destruct (expect "}" (skip_ws r0)) as [r'|] eqn:He.
      - intros [= <- <-]. apply expect_length in He. lia.
      - destruct (parse_members n r0) as [[ms r']|] eqn:H; [|discriminate].
        cbn. intros [= <- <-]. apply IHm in H. lia. }
    destruct (Chars.is_char c "-" || Chars.is_digit c).
    { destruct (number (String c r0)) as [[lit r']|] eqn:H; [|discriminate].
      cbn. intros [= <- <-]. apply number_length in H. cbn in H. lia. }
    intros H. apply keyword_length in H. cbn in H. lia.
  - rewrite parse_elements_S.
    destruct (parse_value n s) as [[v r0]|] eqn:H; [|discriminate].
    cbn. intros H'. apply sequel_length in H'; [|exact IHe].
    apply IHv in H. lia.
  - rewrite parse_members_S.
    pose proof (skip_ws_length s) as Hs.
    destruct (expect Chars.quote (skip_ws s)) as [r1|] eqn:H1; [|discriminate].
    cbn. apply expect_length in H1.
    destruct (string_chars r1) as [[key r2]|] eqn:H2; [|discriminate].
    cbn. apply string_chars_length in H2.
    pose proof (skip_ws_length r2) as Hr2.
    destruct (expect ":" (skip_ws r2)) as [r3|] eqn:H3; [|discriminate].
    cbn. apply expect_length in H3.
    destruct (parse_value n r3) as [[v r4]|] eqn:H4; [|discriminate].
    cbn. apply IHv in H4.
    intros H'. apply sequel_length in H'; [|exact IHm]. lia.
Qed.

Lemma sequel_ext {A : Type} (close : ascii) (more more' : string -> option (list A * string))
    (x : A) (s : string) :
  (∀ r, S (len r) ≤ len s → more r = more' r) →
  sequel close more x s = sequel close more' x s.
Proof.
  intros H. unfold sequel.
  pose proof (skip_ws_length s) as Hs.
  destruct (skip_ws s) as [|c r0]; [reflexivity|]. cbn in Hs.
  rewrite H by lia. reflexivity.
Qed.

(** One more unit of fuel changes nothing once the fuel exceeds twice the
    length of the text. *)
Lemma fuel_step (n : nat) :
  (∀ s, 2 * len s + 1 ≤ n → parse_value (S n) s = parse_value n s)
  ∧ (∀ s, 2 * len s + 2 ≤ n → parse_elements (S n) s = parse_elements n s)
  ∧ (∀ s, 2 * len s + 2 ≤ n → parse_members (S n) s = parse_members n s).
Proof.
  induction n as [|n (IHv & IHe & IHm)]; [repeat split; intros s Hs; lia|].
  destruct (parsers_consume n) as (Cv & _ & _).
  repeat split; intros s Hn.
  - rewrite (parse_value_S (S n)), (parse_value_S n).
    pose proof (skip_ws_length s) as Hs.
    destruct (skip_ws s) as [|c r0]; [reflexivity|]. cbn in Hs.
    rewrite IHe, IHm by lia. reflexivity.
  - rewrite (parse_elements_S (S n)), (parse_elements_S n).
    rewrite IHv by lia.
    destruct (parse_value n s) as [[v r0]|] eqn:H; [|reflexivity].
    cbn [mbind option_bind].
    apply Cv in H. apply sequel_ext. intros r Hr. apply IHe. lia.
  - rewrite (parse_members_S (S n)), (parse_members_S n).
    pose proof (skip_ws_length s) as Hs.
    destruct (expect Chars.quote (skip_ws s)) as [r1|] eqn:H1; [|reflexivity].
    cbn [mbind option_bind]. apply expect_length in H1.
    destruct (string_chars r1) as [[key r2]|] eqn:H2; [|reflexivity].
    cbn [mbind option_bind]. apply string_chars_length in H2.
    pose proof (skip_ws_length r2) as Hr2.
    destruct (expect ":" (skip_ws r2)) as [r3|] eqn:H3; [|reflexivity].
    cbn [mbind option_bind]. apply expect_length in H3.
    rewrite IHv by lia.
    destruct (parse_value n r3) as [[v r4]|] eqn:H4; [|reflexivity].
    cbn [mbind option_bind]. apply Cv in H4. apply sequel_ext. intros r Hr. apply IHm. lia.
Qed.

(** The result of reading a text does not depend on the fuel, from
    [enough_fuel] on: where [parse] finds no value, there is none. *)
Lemma parse_value_fuel (text : string) (extra : nat) :
  parse_value (enough_fuel text + extra) text = parse_value (enough_fuel text) text.
Proof.
  induction extra as [|extra IH]; [by rewrite Nat.add_0_r|].
  rewrite Nat.add_succ_r, <- IH.
  apply (fuel_step (enough_fuel text + extra)). unfold enough_fuel. lia.
Qed.

End JSONFacts.

(** ** Basic facts about the host operations *)

Lemma href_build_uri (preview : bool) (q a k : string) :
  url.href (build_uri (endpoint preview) q a k) = endpoint preview.
Proof. destruct preview; reflexivity. Qed.

Lemma callApi_supported (preview : bool) (q a k : string) (w : World) :
  callApi q (version_of preview) a k w =
    (Normal (length (promises w)),
     mkWorld (promises w ++ [Pending])
             (network w ++ [mkRequest "GET" (endpoint preview) []
                                      (ResponseCallback (length (promises w)))])
             (completed w) (uncaught w)).
Proof.
  destruct preview; reflexivity.
Qed.

Lemma client_call_eq (a k : string) (preview : bool) (q : string) (w : World) :
  client_call a k preview q w = callApi q (version_of preview) a k w.
Proof. destruct preview; reflexivity. Qed.

Lemma client_call_world (a k : string) (preview : bool) (q : string) (w : World) :
  client_call a k preview q w =
    (Normal (length (promises w)),
     mkWorld (promises w ++ [Pending])
             (network w ++ [mkRequest "GET" (endpoint preview) []
                                      (ResponseCallback (length (promises w)))])
             (completed w) (uncaught w)).
Proof. rewrite client_call_eq. apply callApi_supported. Qed.

(** [settle] touches one pending promise and nothing else. *)
Lemma settle_world (p : PromiseId) (s : PromiseState) (w : World) :
  snd (settle p s w) =
    match promises w !! p with
    | Some Pending => set_promises (<[p := s]> (promises w)) w
    | _ => w
    end.
Proof.
  unfold settle. destruct (promises w !! p) as [[]|]; reflexivity.
Qed.

Lemma settle_returns (p : PromiseId) (s : PromiseState) (w : World) :
  settle p s w = (Normal (), snd (settle p s w)).
Proof.
  unfold settle. destruct (promises w !! p) as [[]|]; reflexivity.
Qed.

Lemma settle_network p s w : network (snd (settle p s w)) = network w.
Proof. rewrite settle_world. destruct (promises w !! p) as [[]|]; reflexivity. Qed.

Lemma settle_completed p s w : completed (snd (settle p s w)) = completed w.
Proof. rewrite settle_world. destruct (promises w !! p) as [[]|]; reflexivity. Qed.

Lemma settle_uncaught p s w : uncaught (snd (settle p s w)) = uncaught w.
Proof. rewrite settle_world. destruct (promises w !! p) as [[]|]; reflexivity. Qed.

Lemma settle_length p s w :
  length (promises (snd (settle p s w))) = length (promises w).
Proof.
  rewrite settle_world. destruct (promises w !! p) as [[]|]; simpl;
    rewrite ?length_insert; reflexivity.
Qed.

Lemma settle_other p s w p' :
  p' ≠ p → promises (snd (settle p s w)) !! p' = promises w !! p'.
Proof.
  intros Hne. rewrite settle_world.
  destruct (promises w !! p) as [[]|]; simpl; try reflexivity.
  apply list_lookup_insert_ne. congruence.
Qed.

Lemma settle_pending p s w :
  promises w !! p = Some Pending → promises (snd (settle p s w)) !! p = Some s.
Proof.
  intros Hp. rewrite settle_world, Hp. simpl.
  apply list_lookup_insert_eq. eapply lookup_lt_Some; eassumption.
Qed.

Lemma complete_open (r : nat) (o : Outcome) (w : World) (rq : HttpRequest) :
  network w !! r = Some rq → r ∉ completed w →
  complete r o w = after_callback (cb_promise (req_callback rq)) o (mark_completed r w).
Proof.
  intros Hr Hc. unfold complete. rewrite Hr.
  destruct (decide (r ∈ completed w)) as [Hin|_]; [contradiction|].
  destruct rq as [m u h [p]]; destruct o as [e|rsp body]; simpl.
  - unfold reject. rewrite settle_returns. reflexivity.
  - unfold JSON_parse, mbind, JS_bind.
    destruct (JSON.parse body) as [v|]; simpl; [|reflexivity].
    unfold resolve. rewrite settle_returns. reflexivity.
Qed.

Lemma complete_closed (r : nat) (o : Outcome) (w : World) :
  r ∈ completed w ∨ network w !! r = Datatypes.None → complete r o w = w.
Proof.
  intros H. unfold complete. destruct (network w !! r); [|reflexivity].
  destruct (decide (r ∈ completed w)); [reflexivity|].
  destruct H; [contradiction|discriminate].
Qed.

Lemma after_callback_network p o w : network (after_callback p o w) = network w.
Proof.
  destruct o as [e|rsp body]; simpl; [apply settle_network|].
  destruct (JSON.parse body); [apply settle_network|reflexivity].
Qed.

Lemma after_callback_completed p o w : completed (after_callback p o w) = completed w.
Proof.
  destruct o as [e|rsp body]; simpl; [apply settle_completed|].
  destruct (JSON.parse body); [apply settle_completed|reflexivity].
Qed.

Lemma after_callback_length p o w :
  length (promises (after_callback p o w)) = length (promises w).
Proof.
  destruct o as [e|rsp body]; simpl; [apply settle_length|].
  destruct (JSON.parse body); [apply settle_length|reflexivity].
Qed.

Lemma after_callback_other p o w p' :
  p' ≠ p → promises (after_callback p o w) !! p' = promises w !! p'.
Proof.
  intros Hne. destruct o as [e|rsp body]; simpl; [by apply settle_other|].
  destruct (JSON.parse body); [by apply settle_other|reflexivity].
Qed.

Lemma after_callback_pending p o w :
  promises w !! p = Some Pending →
  promises (after_callback p o w) !! p = Some (outcome_state o).
Proof.
  intros Hp. destruct o as [e|rsp body]; simpl; [by apply settle_pending|].
  destruct (JSON.parse body); [by apply settle_pending|exact Hp].
Qed.

(** ** Invariants of the event loop *)

Lemma wf_initial : wf initial.
Proof.
  split.
  - intros r Hr. cbn in Hr. set_solver.
  - intros r rq Hr. cbn in Hr. discriminate.
Qed.

Lemma wf_call a k preview q w : wf w → wf (snd (client_call a k preview q w)).
Proof.
  intros [Hc Hcb]. rewrite client_call_world. split; cbn.
  - intros r Hr. rewrite length_app. specialize (Hc r Hr). cbn. lia.
  - intros r rq Hr. rewrite length_app. cbn.
    apply lookup_app_Some in Hr as [Hr|[_ Hr]].
    + specialize (Hcb r rq Hr). lia.
    + apply list_lookup_singleton_Some in Hr as [_ <-]. cbn. lia.
Qed.

Lemma wf_complete r o w : wf w → wf (complete r o w).
Proof.
  intros [Hc Hcb].
  destruct (network w !! r) as [rq|] eqn:Hr; [|by rewrite complete_closed; auto].
  destruct (decide (r ∈ completed w)) as [Hin|Hin]; [by rewrite complete_closed; auto|].
  rewrite (complete_open r o w rq Hr Hin). split.
  - intros r'. rewrite after_callback_completed, after_callback_network. cbn.
    intros [->%elem_of_singleton|Hr']%elem_of_union; [|by apply Hc].
    eapply lookup_lt_Some; eassumption.
  - intros r' rq'. rewrite after_callback_network, after_callback_length. cbn. apply Hcb.
Qed.

Lemma wf_step w ev : wf w → wf (step w ev).
Proof. destruct ev; [apply wf_call|apply wf_complete]. Qed.

Lemma wf_run events w : wf w → wf (run events w).
Proof.
  revert w. induction events as [|ev events IH]; intros w Hw; [exact Hw|].
  cbn. apply IH, wf_step, Hw.
Qed.

Lemma frozen_step w p s ev : frozen w p s → frozen (step w ev) p s.
Proof.
  intros [Hs Hcl]. destruct ev as [a k preview q|r o]; cbn.
  - rewrite client_call_world. split; cbn.
    + apply lookup_app_l_Some, Hs.
    + intros r rq [Hr|[_ Hr]]%lookup_app_Some; [by eapply Hcl|].
      apply list_lookup_singleton_Some in Hr as [_ <-]. cbn. intros <-.
      apply lookup_lt_Some in Hs. lia.
  - destruct (network w !! r) as [rq|] eqn:Hr; [|by rewrite complete_closed; auto].
    destruct (decide (r ∈ completed w)) as [Hin|Hin]; [by rewrite complete_closed; auto|].
    rewrite (complete_open r o w rq Hr Hin).
    assert (p ≠ cb_promise (req_callback rq)) as Hne.
    { intros ->. apply Hin. by eapply Hcl. }
    split.
    + rewrite after_callback_other by exact Hne. exact Hs.
    + intros r' rq'. rewrite after_callback_network, after_callback_completed. cbn.
      intros Hr' Hp. apply elem_of_union_r. by eapply Hcl.
Qed.

Lemma frozen_run events w p s : frozen w p s → frozen (run events w) p s.
Proof.
  revert w. induction events as [|ev events IH]; intros w Hw; [exact Hw|].
  cbn. apply IH, frozen_step, Hw.
Qed.

Lemma owns_call a k preview q w :
  wf w →
  owns (snd (client_call a k preview q w)) (length (network w)) (length (promises w)).
Proof.
  intros [Hc Hcb]. rewrite client_call_world. split; cbn.
  - eexists. split; [apply list_lookup_middle; reflexivity|reflexivity].
  - intros Hin. apply Hc in Hin. lia.
  - apply list_lookup_middle. reflexivity.
  - intros r' rq' [Hr|[Hge Hr]]%lookup_app_Some Hp.
    + apply Hcb in Hr. lia.
    + apply list_lookup_singleton_Some in Hr as [Hr _]. lia.
Qed.

Lemma owns_step w r p ev :
  leaves_open r [ev] = true → owns w r p → owns (step w ev) r p.
Proof.
  intros Hev Hown. pose proof Hown as [(rq & Hr & Hrq) Hopen Hpend Honly].
  destruct ev as [a k preview q|r' o]; cbn.
  - rewrite client_call_world. split; cbn.
    + exists rq. split; [apply lookup_app_l_Some, Hr|exact Hrq].
    + exact Hopen.
    + apply lookup_app_l_Some, Hpend.
    + intros r' rq' [Hr'|[_ Hr']]%lookup_app_Some Hp; [by eapply Honly|].
      apply list_lookup_singleton_Some in Hr' as [_ <-]. cbn in Hp.
      apply lookup_lt_Some in Hpend. lia.
  - cbn in Hev. rewrite andb_true_r in Hev.
    apply negb_true_iff, Nat.eqb_neq in Hev.
    destruct (network w !! r') as [rq'|] eqn:Hr';
      [|rewrite complete_closed by auto; exact Hown].
    destruct (decide (r' ∈ completed w)) as [Hin|Hin];
      [rewrite complete_closed by auto; exact Hown|].
    rewrite (complete_open r' o w rq' Hr' Hin).
    assert (p ≠ cb_promise (req_callback rq')) as Hne.
    { intros Hp. apply Hev. by eapply Honly. }
    split.
    + exists rq. rewrite after_callback_network. by split.
    + rewrite after_callback_completed. cbn.
      apply not_elem_of_union. split; [|exact Hopen].
      apply not_elem_of_singleton. congruence.
    + rewrite after_callback_other by exact Hne. exact Hpend.
    + intros r'' rq''. rewrite after_callback_network. cbn. apply Honly.
Qed.

Lemma owns_run events w r p :
  leaves_open r events = true → owns w r p → owns (run events w) r p.
Proof.
  revert w. induction events as [|ev events IH]; intros w Hev Hw; [exact Hw|].
  cbn in Hev. apply andb_true_iff in Hev as [Hev Hevs].
  cbn. apply IH; [exact Hevs|]. apply owns_step; [|exact Hw].
  cbn. by rewrite Hev.
Qed.

Lemma owns_complete w r p o :
  owns w r p → frozen (complete r o w) p (outcome_state o).
Proof.
  intros [(rq & Hr & Hrq) Hopen Hpend Honly].
  rewrite (complete_open r o w rq Hr Hopen), Hrq. split.
  - by apply after_callback_pending.
  - intros r' rq'. rewrite after_callback_network, after_callback_completed. cbn.
    intros Hr' Hp. rewrite (Honly r' rq' Hr' Hp). set_solver.
Qed.

(** A call through the public interface, then any events that leave its
    request open, then the end of its exchange, then anything: the promise
    the call returned is in the state the outcome determines. *)
Lemma call_then_outcome (history between later : list Event)
    (a k : string) (preview : bool) (q : string) (o : Outcome) :
  let w0 := run history initial in
  leaves_open (length (network w0)) between = true →
  promises
    (run (between ++ Completes (length (network w0)) o :: later)
         (snd (client_call a k preview q w0)))
    !! length (promises w0) = Some (outcome_state o).
Proof.
  intros w0 Hopen. unfold run. rewrite fold_left_app. cbn.
  apply frozen_state, frozen_run, owns_complete, owns_run; [exact Hopen|].
  apply owns_call, wf_run, wf_initial.
Qed.

(** ** Further facts *)

Lemma run_app (es1 es2 : list Event) (w : World) :
  run (es1 ++ es2) w = run es2 (run es1 w).
Proof. apply fold_left_app. Qed.

Lemma reached_snoc (history : list Event) (ev : Event) :
  reached (history ++ [ev]) = step (reached history) ev.
Proof. unfold reached. rewrite run_app. reflexivity. Qed.

Lemma next_request_call a k preview q w :
  next_request (snd (client_call a k preview q w)) = S (next_request w).
Proof.
  rewrite client_call_world. unfold next_request. cbn.
  rewrite length_app. cbn. lia.
Qed.

Lemma next_promise_call a k preview q w :
  next_promise (snd (client_call a k preview q w)) = S (next_promise w).
Proof.
  rewrite client_call_world. unfold next_promise. cbn.
  rewrite length_app. cbn. lia.
Qed.

(** X7: a settled promise keeps its state whatever happens next: further
    calls, the end of other exchanges, or a second invocation of its own
    callback. *)
Lemma settled_forever (events : list Event) (w : World) (p : PromiseId) (s : PromiseState) :
  promises w !! p = Some s → s ≠ Pending → promises (run events w) !! p = Some s.
Proof.
  revert w. induction events as [|ev events IH]; intros w Hp Hs; [exact Hp|].
  cbn. apply IH; [|exact Hs]. destruct ev as [a k preview q|r o]; cbn.
  - rewrite client_call_world. cbn. apply lookup_app_l_Some, Hp.
  - destruct (network w !! r) as [rq|] eqn:Hr; [|by rewrite complete_closed; auto].
    destruct (decide (r ∈ completed w)) as [Hin|Hin]; [by rewrite complete_closed; auto|].
    rewrite (complete_open r o w rq Hr Hin).
    destruct (decide (p = cb_promise (req_callback rq))) as [<-|Hne];
      [|by rewrite after_callback_other].
    destruct o as [e|rsp body]; unfold after_callback.
    + unfold reject. rewrite settle_world. cbn. rewrite Hp. by destruct s.
    + destruct (JSON.parse body); [|exact Hp].
      unfold resolve. rewrite settle_world. cbn. rewrite Hp. by destruct s.
Qed.

(** ** The request of a call *)

(** C1 (the code departs from it): [create("app-123", "key-abc")
    .queryV1("book a flight to Paris")] hands exactly one request to the
    transport, a [GET], but its URI is the bare V1 endpoint.  [callApi]
    assigns the three parameters to [uri.query] and then passes [uri.href],
    which [url.parse] computed before the assignment; the URI with the
    parameters appended is what [url.format(uri)] yields, and that text is
    never sent. *)
Theorem queryV1_sends_bare_endpoint :
  network (snd (client_call "app-123" "key-abc" false "book a flight to Paris" initial))
    = [mkRequest "GET" "https://api.projectoxford.ai/luis/v1/application" []
                 (ResponseCallback 0)]
  ∧ intended_uri false "book a flight to Paris" "app-123" "key-abc"
    = "https://api.projectoxford.ai/luis/v1/application?id=app-123&subscription-key=key-abc&q=book%20a%20flight%20to%20Paris"
  ∧ url.href (build_uri (endpoint false) "book a flight to Paris" "app-123" "key-abc")
    ≠ intended_uri false "book a flight to Paris" "app-123" "key-abc".
Proof.
  split; [reflexivity|]. split; [reflexivity|].
  vm_compute. discriminate.
Qed.

(** C3: the [switch] of the dispatcher yields the production endpoint for
    [V1] and the preview endpoint for [V1Preview], without touching the
    world, and the request of a call is addressed to the endpoint of its
    selector. *)
Theorem version_selects_base_endpoint (q a k : string) (w : World) :
  select_baseUri Version.V1 w
    = (Normal "https://api.projectoxford.ai/luis/v1/application", w)
  ∧ select_baseUri Version.V1Preview w
    = (Normal "https://api.projectoxford.ai/luis/v1/application/preview", w)
  ∧ (∀ preview : bool,
       req_uri <$> network (snd (callApi q (version_of preview) a k w)) !! next_request w
         = Some (endpoint preview)
       ∧ url.protocol (build_uri (endpoint preview) q a k) = Some "https:"
       ∧ url.host (build_uri (endpoint preview) q a k) = Some "api.projectoxford.ai"
       ∧ url.pathname (build_uri (endpoint preview) q a k)
         = Some (if preview then "/luis/v1/application/preview"
                 else "/luis/v1/application")).
Proof.
  split; [reflexivity|]. split; [reflexivity|].
  intros preview. split.
  - rewrite callApi_supported. cbn.
    rewrite list_lookup_middle by reflexivity. reflexivity.
  - destruct preview; repeat split; reflexivity.
Qed.

(** ** The outcome of a call *)

(** C4: when the exchange of a call ends in a transport error, the promise
    the call returned is rejected with that very error, and stays so
    whatever happens afterwards. *)
Theorem transport_error_rejects (history between later : list Event)
    (a k : string) (preview : bool) (q : string) (e : JSError) :
  leaves_open (next_request (reached history)) between = true →
  fst (client_call a k preview q (reached history))
    = Normal (next_promise (reached history))
  ∧ promises
      (run (between
              ++ Completes (next_request (reached history)) (TransportError e) :: later)
           (snd (client_call a k preview q (reached history))))
      !! next_promise (reached history) = Some (Rejected e).
Proof.
  intros Hopen. split; [by rewrite client_call_world|].
  exact (call_then_outcome history between later a k preview q (TransportError e) Hopen).
Qed.

Lemma transport_error_rejects_witness :
  promises
    (run ([Calls "other-app" "other-key" true "hello"]
            ++ Completes 0 (TransportError (Error "connect ECONNREFUSED"))
            :: [Completes 0 (Response (mkResponse 200 "OK" []) "[]")])
         (snd (client_call "app-123" "key-abc" false "book a flight to Paris"
                           (reached []))))
    !! 0 = Some (Rejected (Error "connect ECONNREFUSED")).
Proof.
  apply (transport_error_rejects [] [Calls "other-app" "other-key" true "hello"]
           [Completes 0 (Response (mkResponse 200 "OK" []) "[]")]
           "app-123" "key-abc" false "book a flight to Paris"
           (Error "connect ECONNREFUSED")).
  reflexivity.
Defined.

(** C5: when a response arrives, its status code, status message and
    headers play no part: if the body parses, the promise the call returned
    is fulfilled with the parsed value as it is, whatever its shape, and
    stays so. *)
Theorem parsed_body_resolves (history between later : list Event)
    (a k : string) (preview : bool) (q : string)
    (response : IncomingMessage) (body : string) (v : JSON.value) :
  leaves_open (next_request (reached history)) between = true →
  JSON.parse body = Some v →
  fst (client_call a k preview q (reached history))
    = Normal (next_promise (reached history))
  ∧ promises
      (run (between
              ++ Completes (next_request (reached history)) (Response response body)
              :: later)
           (snd (client_call a k preview q (reached history))))
      !! next_promise (reached history) = Some (Fulfilled v).
Proof.
  intros Hopen Hparse. split; [by rewrite client_call_world|].
  pose proof (call_then_outcome history between later a k preview q
                (Response response body) Hopen) as H.
  unfold outcome_state in H. rewrite Hparse in H. exact H.
Qed.

Lemma parsed_body_resolves_witness :
  JSON.parse access_denied_body = Some access_denied_value
  ∧ promises
      (run ([] ++ Completes 0 (Response (mkResponse 401 "Access Denied" [])
                                        access_denied_body) :: [])
           (snd (client_call "app-123" "bad-key" false "book a flight to Paris"
                             (reached []))))
      !! 0 = Some (Fulfilled access_denied_value).
Proof.
  split; [reflexivity|].
  apply (parsed_body_resolves [] [] [] "app-123" "bad-key" false
           "book a flight to Paris" (mkResponse 401 "Access Denied" [])
           access_denied_body access_denied_value).
  - reflexivity.
  - reflexivity.
Defined.

(** C2 (the code departs from it): an empty body does not parse, and the
    promise is not rejected.  [JSON.parse] throws inside the callback the
    transport invokes, after the executor of the promise has returned; no
    [reject] is reached, the [SyntaxError] leaves the callback uncaught and
    the promise stays pending for good. *)
Theorem empty_body_is_not_rejected (later : list Event) :
  JSON.parse "" = None
  ∧ promises
      (complete 0 (Response (mkResponse 200 "OK" []) "")
         (snd (client_call "app-123" "key-abc" false "book a flight to Paris" initial)))
    = [Pending]
  ∧ uncaught
      (complete 0 (Response (mkResponse 200 "OK" []) "")
         (snd (client_call "app-123" "key-abc" false "book a flight to Paris" initial)))
    = [SyntaxError "Unexpected token in JSON"]
  ∧ promises
      (run later
         (complete 0 (Response (mkResponse 200 "OK" []) "")
            (snd (client_call "app-123" "key-abc" false "book a flight to Paris"
                              initial))))
      !! 0 = Some Pending.
Proof.
  split; [reflexivity|]. split; [reflexivity|]. split; [reflexivity|].
  exact (call_then_outcome [] [] later "app-123" "key-abc" false
           "book a flight to Paris" (Response (mkResponse 200 "OK" []) "") eq_refl).
Qed.

(** C9 (the code departs from it): a call whose response carries malformed
    text never settles its promise.  Whatever events follow the end of the
    exchange, the promise is still pending: completion is delivered zero
    times, not once.  The cause is the one of C2. *)
Theorem malformed_body_never_settles (later : list Event) :
  promises
    (run (Completes 0 (Response (mkResponse 503 "Service Unavailable" [])
                                "<html>Service Unavailable</html>") :: later)
         (snd (client_call "app-123" "key-abc" true "book a flight to Paris" initial)))
    !! 0 = Some Pending.
Proof.
  exact (call_then_outcome [] [] later "app-123" "key-abc" true
           "book a flight to Paris"
           (Response (mkResponse 503 "Service Unavailable" [])
                     "<html>Service Unavailable</html>") eq_refl).
Qed.

(** ** The factory and the dispatcher *)

(** C6: with the selector [None] the dispatcher throws at once and leaves
    the world as it found it: no promise, no request.  The two operations
    of an application pass [V1] and [V1Preview], and a call of either
    returns a promise. *)
Theorem unsupported_version_throws_first (q a k : string) (w : World) :
  callApi q Version.None a k w
    = (Throw (Error "The specified version 'None' is not supported."), w)
  ∧ ∃ app : Application,
      create a k w = (Normal app, w)
      ∧ queryV1 app q = callApi q Version.V1 a k
      ∧ queryV1Preview app q = callApi q Version.V1Preview a k
      ∧ fst (queryV1 app q w) = Normal (next_promise w)
      ∧ fst (queryV1Preview app q w) = Normal (next_promise w).
Proof.
  split; [reflexivity|].
  eexists. split; [reflexivity|]. cbn.
  repeat split; reflexivity.
Qed.


Lemma client_call_network a k preview q w :
  network (snd (client_call a k preview q w))
    = network w ++ [request_of preview q a k (next_promise w)].
Proof.
  rewrite client_call_world. unfold request_of. rewrite href_build_uri. reflexivity.
Qed.

Lemma leaves_open_later (r : nat) (o : Outcome) (ev : Event) :
  leaves_open r [ev; Completes (S r) o] = leaves_open r [ev].
Proof.
  unfold leaves_open, forallb.
  replace (S r =? r)%nat with false; [reflexivity|].
  symmetry. apply Nat.eqb_neq. lia.
Qed.

Lemma leaves_open_earlier (r : nat) (o : Outcome) :
  leaves_open (S r) [Completes r o] = true.
Proof.
  unfold leaves_open, forallb.
  replace (r =? S r)%nat with false; [reflexivity|].
  symmetry. apply Nat.eqb_neq. lia.
Qed.

(** Calls do not disturb each other.  The request of a call is the same
    in whatever world the call is made; when two applications each make a
    call, the two requests are appended in the order of the calls, and in
    whichever order the two exchanges end, each promise gets the state its
    own outcome determines. *)
Lemma calls_do_not_interfere (history later : list Event)
    (a1 k1 a2 k2 : string) (pv1 pv2 : bool) (q1 q2 : string) (o1 o2 : Outcome)
    (w : World) :
  network (snd (client_call a1 k1 pv1 q1 w))
    = network w ++ [request_of pv1 q1 a1 k1 (next_promise w)]
  ∧ url.query (build_uri (endpoint pv1) q1 a1 k1)
    = url.QueryObject [("id", a1); ("subscription-key", k1); ("q", q1)]
  ∧ network (run [Calls a1 k1 pv1 q1; Calls a2 k2 pv2 q2] (reached history))
    = network (reached history)
        ++ [request_of pv1 q1 a1 k1 (next_promise (reached history));
            request_of pv2 q2 a2 k2 (S (next_promise (reached history)))]
  ∧ (∀ first_ends_first : bool,
       let ends :=
         if first_ends_first
         then [Completes (next_request (reached history)) o1;
               Completes (S (next_request (reached history))) o2]
         else [Completes (S (next_request (reached history))) o2;
               Completes (next_request (reached history)) o1] in
       let w' :=
         run (Calls a1 k1 pv1 q1 :: Calls a2 k2 pv2 q2 :: ends ++ later)
             (reached history) in
       promises w' !! next_promise (reached history) = Some (outcome_state o1)
       ∧ promises w' !! S (next_promise (reached history)) = Some (outcome_state o2)).
Proof.
  split; [apply client_call_network|].
  split; [by destruct pv1|].
  split.
  { cbn. rewrite !client_call_network, next_promise_call, <- app_assoc. reflexivity. }
  intros first_ends_first ends w'.
  pose proof (reached_snoc history (Calls a1 k1 pv1 q1)) as Hsnoc. cbn in Hsnoc.
  assert (next_request (reached (history ++ [Calls a1 k1 pv1 q1]))
          = S (next_request (reached history))) as Hr
    by (rewrite Hsnoc; apply next_request_call).
  assert (next_promise (reached (history ++ [Calls a1 k1 pv1 q1]))
          = S (next_promise (reached history))) as Hp
    by (rewrite Hsnoc; apply next_promise_call).
  split.
  - destruct first_ends_first; subst ends w'.
    + exact (call_then_outcome history [Calls a2 k2 pv2 q2]
               (Completes (S (next_request (reached history))) o2 :: later)
               a1 k1 pv1 q1 o1 eq_refl).
    + exact (call_then_outcome history
               [Calls a2 k2 pv2 q2; Completes (S (next_request (reached history))) o2]
               later a1 k1 pv1 q1 o1
               (leaves_open_later _ o2 (Calls a2 k2 pv2 q2))).
  - destruct first_ends_first; subst ends w'.
    + pose proof (call_then_outcome (history ++ [Calls a1 k1 pv1 q1])
                    [Completes (next_request (reached history)) o1] later
                    a2 k2 pv2 q2 o2) as H.
      cbn zeta in H. fold (reached (history ++ [Calls a1 k1 pv1 q1])) in H.
      fold (next_request (reached (history ++ [Calls a1 k1 pv1 q1]))) in H.
      fold (next_promise (reached (history ++ [Calls a1 k1 pv1 q1]))) in H.
      rewrite Hr, Hp in H. specialize (H (leaves_open_earlier _ o1)).
      rewrite Hsnoc in H. exact H.
    + pose proof (call_then_outcome (history ++ [Calls a1 k1 pv1 q1])
                    [] (Completes (next_request (reached history)) o1 :: later)
                    a2 k2 pv2 q2 o2) as H.
      cbn zeta in H. fold (reached (history ++ [Calls a1 k1 pv1 q1])) in H.
      fold (next_request (reached (history ++ [Calls a1 k1 pv1 q1]))) in H.
      fold (next_promise (reached (history ++ [Calls a1 k1 pv1 q1]))) in H.
      rewrite Hr, Hp in H. specialize (H eq_refl).
      rewrite Hsnoc in H. exact H.
Qed.

(** C8 (the code departs from it): two applications with different
    credentials each make one call, and neither request uses the parameters
    of its call.  Both requests are the same [GET] to the bare V1 endpoint,
    although the URLs the two calls denote differ in all three parameters:
    [callApi] passes [uri.href], which does not contain what was assigned to
    [uri.query].  The cause is the one of C1. *)
Theorem different_credentials_same_request :
  network
    (run [Calls "app-1" "key-1" false "first question";
          Calls "app-2" "key-2" false "second question"] initial)
    = [mkRequest "GET" "https://api.projectoxford.ai/luis/v1/application" []
                 (ResponseCallback 0);
       mkRequest "GET" "https://api.projectoxford.ai/luis/v1/application" []
                 (ResponseCallback 1)]
  ∧ intended_uri false "first question" "app-1" "key-1"
    = "https://api.projectoxford.ai/luis/v1/application?id=app-1&subscription-key=key-1&q=first%20question"
  ∧ intended_uri false "second question" "app-2" "key-2"
    = "https://api.projectoxford.ai/luis/v1/application?id=app-2&subscription-key=key-2&q=second%20question".
Proof.
  split; [reflexivity|]. split; reflexivity.
Qed.

(** C10: the two operations are one call of the dispatcher with two
    selectors.  From the same world they return the same promise and leave
    worlds that differ in the URI of the new request only; the parameters
    they assign are the same; and once the exchange has ended the promise is
    in the state the outcome determines, the same for both, a parsed body
    being passed on as it is. *)
Theorem operations_differ_in_endpoint_only (history between later : list Event)
    (a k q : string) (o : Outcome) :
  leaves_open (next_request (reached history)) between = true →
  (∀ preview : bool,
     client_call a k preview q = callApi q (version_of preview) a k
     ∧ client_call a k preview q (reached history)
       = (Normal (next_promise (reached history)),
          mkWorld (promises (reached history) ++ [Pending])
                  (network (reached history)
                     ++ [mkRequest "GET" (endpoint preview) []
                           (ResponseCallback (next_promise (reached history)))])
                  (completed (reached history)) (uncaught (reached history)))
     ∧ promises
         (run (between ++ Completes (next_request (reached history)) o :: later)
              (snd (client_call a k preview q (reached history))))
         !! next_promise (reached history) = Some (outcome_state o))
  ∧ url.query (build_uri (endpoint false) q a k)
    = url.query (build_uri (endpoint true) q a k).
Proof.
  intros Hopen. split; [|reflexivity].
  intros preview. split; [by destruct preview|].
  split; [apply client_call_world|].
  exact (call_then_outcome history between later a k preview q o Hopen).
Qed.

Lemma operations_differ_in_endpoint_only_witness :
  (∀ preview : bool,
     client_call "app-123" "key-abc" preview "book a flight to Paris"
       = callApi "book a flight to Paris" (version_of preview) "app-123" "key-abc"
     ∧ client_call "app-123" "key-abc" preview "book a flight to Paris" (reached [])
       = (Normal (next_promise (reached [])),
          mkWorld (promises (reached []) ++ [Pending])
                  (network (reached [])
                     ++ [mkRequest "GET" (endpoint preview) []
                           (ResponseCallback (next_promise (reached [])))])
                  (completed (reached [])) (uncaught (reached [])))
     ∧ promises
         (run ([Calls "app-123" "key-abc" (negb preview) "hello"]
                 ++ Completes (next_request (reached []))
                      (Response (mkResponse 200 "OK" []) access_denied_body) :: [])
              (snd (client_call "app-123" "key-abc" preview "book a flight to Paris"
                                (reached []))))
         !! next_promise (reached [])
       = Some (outcome_state (Response (mkResponse 200 "OK" []) access_denied_body)))
  ∧ url.query (build_uri (endpoint false) "book a flight to Paris" "app-123" "key-abc")
    = url.query (build_uri (endpoint true) "book a flight to Paris" "app-123" "key-abc").
Proof.
  split.
  - intros preview.
    apply (operations_differ_in_endpoint_only []
             [Calls "app-123" "key-abc" (negb preview) "hello"] []
             "app-123" "key-abc" "book a flight to Paris"
             (Response (mkResponse 200 "OK" []) access_denied_body)).
    reflexivity.
  - apply (operations_differ_in_endpoint_only [] [] []
             "app-123" "key-abc" "book a flight to Paris"
             (TransportError (Error "connect ECONNREFUSED"))).
    reflexivity.
Defined.


(** ** Further properties of the dispatcher and its callback *)

Lemma run_cons (ev : Event) (events : list Event) (w : World) :
  run (ev :: events) w = run events (step w ev).
Proof. reflexivity. Qed.

Lemma complete_network (r : nat) (o : Outcome) (w : World) :
  network (complete r o w) = network w.
Proof.
  destruct (network w !! r) as [rq|] eqn:Hr; [|by rewrite complete_closed; auto].
  destruct (decide (r ∈ completed w)) as [Hin|Hin]; [by rewrite complete_closed; auto|].
  rewrite (complete_open r o w rq Hr Hin), after_callback_network. reflexivity.
Qed.

Lemma complete_promises_length (r : nat) (o : Outcome) (w : World) :
  length (promises (complete r o w)) = length (promises w).
Proof.
  destruct (network w !! r) as [rq|] eqn:Hr; [|by rewrite complete_closed; auto].
  destruct (decide (r ∈ completed w)) as [Hin|Hin]; [by rewrite complete_closed; auto|].
  rewrite (complete_open r o w rq Hr Hin), after_callback_length. reflexivity.
Qed.

Lemma step_network (w : World) (ev : Event) :
  network (step w ev)
    = network w ++ match ev with
                   | Calls a k preview q => [request_of preview q a k (next_promise w)]
                   | Completes _ _ => []
                   end.
Proof.
  destruct ev as [a k preview q|r o]; cbn.
  - apply client_call_network.
  - rewrite complete_network, app_nil_r. reflexivity.
Qed.

Lemma step_promises_length (w : World) (ev : Event) :
  length (promises (step w ev))
    = length (promises w) + (if is_call ev then 1 else 0).
Proof.
  destruct ev as [a k preview q|r o]; cbn.
  - rewrite client_call_world. cbn. rewrite length_app. reflexivity.
  - rewrite complete_promises_length. lia.
Qed.

Lemma count_calls_cons (ev : Event) (events : list Event) :
  count_calls (ev :: events) = (if is_call ev then 1 else 0) + count_calls events.
Proof. unfold count_calls. cbn. by destruct (is_call ev). Qed.

Lemma plain_get_request_of (preview : bool) (q a k : string) (p : PromiseId) :
  plain_get (request_of preview q a k p).
Proof.
  unfold plain_get.
  destruct preview; (split; [reflexivity|split; [reflexivity|]]);
    [right|left]; reflexivity.
Qed.

(** X1: the request of a call does not depend on the query text or on the
    credentials.  From the same world, any two calls of the same operation
    hand the same request to the transport, addressed to the bare endpoint:
    neither the application identifier, nor the subscription key, nor the
    query reaches the wire. *)
Theorem request_ignores_parameters (preview : bool) (q a k q' a' k' : string) (w : World) :
  network (snd (client_call a k preview q w))
    = network (snd (client_call a' k' preview q' w))
  ∧ req_uri <$> last (network (snd (client_call a k preview q w)))
    = Some (endpoint preview).
Proof.
  rewrite !client_call_world. cbn. split; [reflexivity|].
  rewrite last_snoc. reflexivity.
Qed.

(** X2: whatever calls are made and however the exchanges end, every
    request ever handed to the transport is a [GET] without headers to one
    of the two endpoints. *)
Theorem only_plain_gets_are_sent (history : list Event) :
  Forall plain_get (network (reached history)).
Proof.
  unfold reached.
  assert (∀ events w, Forall plain_get (network w)
                      → Forall plain_get (network (run events w))) as Hrun.
  { induction events as [|ev events IH]; intros w Hw; [exact Hw|].
    rewrite run_cons. apply IH. rewrite step_network. apply Forall_app. split; [exact Hw|].
    destruct ev; [|constructor].
    constructor; [apply plain_get_request_of|constructor]. }
  apply Hrun. constructor.
Qed.

Lemma run_lengths (events : list Event) (w : World) :
  length (network (run events w)) = length (network w) + count_calls events
  ∧ length (promises (run events w)) = length (promises w) + count_calls events.
Proof.
  revert w. induction events as [|ev events IH]; intros w.
  - cbn. unfold count_calls. cbn. lia.
  - rewrite run_cons. destruct (IH (step w ev)) as [IHn IHp].
    rewrite IHn, IHp, step_network, step_promises_length, length_app, count_calls_cons.
    destruct ev; cbn; lia.
Qed.

(** X3: one request and one promise per call, and nothing else.  Over any
    events, from any world, the number of requests and the number of
    promises grow by the number of calls among the events: the end of an
    exchange, whatever its outcome, sends nothing again. *)
Theorem one_request_per_call (events : list Event) (w : World) :
  length (network (run events w)) = length (network w) + count_calls events
  ∧ length (promises (run events w)) = length (promises w) + count_calls events.
Proof.
  destruct (run_lengths events w) as [Hn Hp].
  split; [exact Hn|exact Hp].
Qed.

Lemma paired_initial : paired initial.
Proof. split; reflexivity. Qed.

Lemma paired_step (w : World) (ev : Event) : paired w → paired (step w ev).
Proof.
  intros [Hlen Hcb]. split.
  - rewrite step_promises_length, step_network, length_app, Hlen.
    destruct ev; reflexivity.
  - rewrite step_network. destruct ev as [a k preview q|r o].
    + rewrite fmap_app, length_app, Hcb. cbn [length].
      rewrite Nat.add_1_r, seq_S, fmap_app. cbn.
      unfold next_promise. rewrite Hlen. reflexivity.
    + rewrite app_nil_r. exact Hcb.
Qed.

Lemma paired_run (events : list Event) (w : World) : paired w → paired (run events w).
Proof.
  revert w. induction events as [|ev events IH]; intros w Hw; [exact Hw|].
  rewrite run_cons. apply IH, paired_step, Hw.
Qed.

Lemma paired_reached (history : list Event) : paired (reached history).
Proof. apply paired_run, paired_initial. Qed.

Lemma paired_callback (w : World) (r : nat) (rq : HttpRequest) :
  paired w → network w !! r = Some rq → cb_promise (req_callback rq) = r.
Proof.
  intros [_ Hcb] Hr.
  assert ((req_callback <$> network w) !! r = Some (req_callback rq)) as H
    by (rewrite list_lookup_fmap, Hr; reflexivity).
  rewrite Hcb, list_lookup_fmap in H.
  rewrite lookup_seq_lt in H by (eapply lookup_lt_Some; eassumption).
  cbn in H.
  assert (req_callback rq = ResponseCallback r) as -> by congruence.
  reflexivity.
Qed.

Lemma promises_after_callback (p : PromiseId) (o : Outcome) (w : World) :
  promises (after_callback p o w) = apply_outcome p o (promises w).
Proof.
  unfold apply_outcome. destruct o as [e|rsp body]; unfold after_callback, outcome_state.
  - unfold reject. rewrite settle_world.
    by destruct (promises w !! p) as [[]|].
  - destruct (JSON.parse body) as [v|].
    + unfold resolve. rewrite settle_world.
      by destruct (promises w !! p) as [[]|].
    + cbn. destruct (promises w !! p) as [[]|] eqn:Hp; try reflexivity.
      symmetry. by apply list_insert_id.
Qed.

Lemma apply_outcome_other (p p' : PromiseId) (o : Outcome) (ps : list PromiseState) :
  p' ≠ p → apply_outcome p o ps !! p' = ps !! p'.
Proof.
  intros Hne. unfold apply_outcome.
  destruct (ps !! p) as [[]|]; try reflexivity.
  apply list_lookup_insert_ne. congruence.
Qed.

Lemma apply_outcome_comm (p1 p2 : PromiseId) (o1 o2 : Outcome) (ps : list PromiseState) :
  p1 ≠ p2 →
  apply_outcome p1 o1 (apply_outcome p2 o2 ps)
    = apply_outcome p2 o2 (apply_outcome p1 o1 ps).
Proof.
  intros Hne. unfold apply_outcome at 1 3.
  rewrite !apply_outcome_other by congruence.
  unfold apply_outcome.
  destruct (ps !! p1) as [[]|], (ps !! p2) as [[]|]; try reflexivity.
  apply list_insert_insert_ne. exact Hne.
Qed.

(** X4: requests and promises go in pairs.  In every world reached by
    calls and ends of exchanges, the callback of the request with index
    [r] holds the resolving functions of the promise with index [r], for
    each of the calls made so far. *)
Theorem each_request_has_its_promise (history : list Event) :
  req_callback <$> network (reached history)
    = ResponseCallback <$> seq 0 (count_calls history)
  ∧ length (promises (reached history)) = count_calls history.
Proof.
  destruct (paired_reached history) as [Hlen Hcb].
  destruct (run_lengths history initial) as [Hn Hp].
  fold (reached history) in Hn, Hp. cbn in Hn, Hp.
  rewrite Hcb, Hn. split; [reflexivity|exact Hp].
Qed.

(** X5: a promise is pending when the call returns it and stays pending
    for as long as its own exchange has not ended, whatever other calls
    are made and however other exchanges end in the meantime. *)
Theorem pending_until_own_exchange_ends (history between : list Event)
    (a k : string) (preview : bool) (q : string) :
  leaves_open (next_request (reached history)) between = true →
  promises (run between (snd (client_call a k preview q (reached history))))
    !! next_promise (reached history) = Some Pending.
Proof.
  intros Hopen.
  apply owns_pending with (r := next_request (reached history)).
  apply owns_run; [exact Hopen|].
  apply owns_call, wf_run, wf_initial.
Qed.

Lemma pending_until_own_exchange_ends_witness :
  promises
    (run [Calls "other-app" "other-key" true "hello";
          Completes 1 (TransportError (Error "connect ECONNREFUSED"));
          Completes 7 (Response (mkResponse 200 "OK" []) "[]")]
         (snd (client_call "app-123" "key-abc" false "book a flight to Paris"
                           (reached []))))
    !! next_promise (reached []) = Some Pending.
Proof.
  apply (pending_until_own_exchange_ends []
           [Calls "other-app" "other-key" true "hello";
            Completes 1 (TransportError (Error "connect ECONNREFUSED"));
            Completes 7 (Response (mkResponse 200 "OK" []) "[]")]
           "app-123" "key-abc" false "book a flight to Paris").
  reflexivity.
Defined.

(** X6: the end of an exchange touches the promise of that exchange and
    no other. *)
Theorem exchange_touches_only_its_promise (history : list Event)
    (r : nat) (o : Outcome) (p : PromiseId) :
  p ≠ r →
  promises (step (reached history) (Completes r o)) !! p
    = promises (reached history) !! p.
Proof.
  intros Hne. cbn.
  destruct (network (reached history) !! r) as [rq|] eqn:Hr;
    [|by rewrite complete_closed; auto].
  destruct (decide (r ∈ completed (reached history))) as [Hin|Hin];
    [by rewrite complete_closed; auto|].
  rewrite (complete_open r o _ rq Hr Hin).
  rewrite (paired_callback _ r rq (paired_reached history) Hr).
  rewrite after_callback_other by exact Hne. reflexivity.
Qed.

Lemma exchange_touches_only_its_promise_witness :
  promises
    (step (reached [Calls "app-123" "key-abc" false "first";
                    Calls "app-123" "key-abc" true "second"])
          (Completes 1 (TransportError (Error "socket hang up"))))
    !! 0
  = promises (reached [Calls "app-123" "key-abc" false "first";
                       Calls "app-123" "key-abc" true "second"]) !! 0.
Proof.
  apply (exchange_touches_only_its_promise
           [Calls "app-123" "key-abc" false "first";
            Calls "app-123" "key-abc" true "second"]
           1 (TransportError (Error "socket hang up")) 0).
  lia.
Defined.

Lemma settled_forever_witness :
  promises
    (run [Completes 0 (Response (mkResponse 200 "OK" []) "[]");
          Calls "app-123" "key-abc" true "again";
          Completes 0 (TransportError (Error "late"))]
         (reached [Calls "app-123" "key-abc" false "book a flight to Paris";
                   Completes 0 (TransportError (Error "connect ECONNREFUSED"))]))
    !! 0 = Some (Rejected (Error "connect ECONNREFUSED")).
Proof.
  apply (settled_forever
           [Completes 0 (Response (mkResponse 200 "OK" []) "[]");
            Calls "app-123" "key-abc" true "again";
            Completes 0 (TransportError (Error "late"))]
           (reached [Calls "app-123" "key-abc" false "book a flight to Paris";
                     Completes 0 (TransportError (Error "connect ECONNREFUSED"))])
           0 (Rejected (Error "connect ECONNREFUSED"))).
  - reflexivity.
  - discriminate.
Defined.

(** X8: a promise is never settled but by the end of its own exchange, and
    then as the outcome of that exchange says.  In every reachable world, a
    promise that is fulfilled or rejected has among the past events the end
    of the exchange with its own index, in an outcome that determines this
    state: a rejection always carries a transport error, a fulfilment always
    the parsed body of a response. *)
Theorem settled_by_own_exchange (history : list Event) (p : PromiseId) (s : PromiseState) :
  promises (reached history) !! p = Some s → s ≠ Pending →
  ∃ o : Outcome, Completes p o ∈ history ∧ outcome_state o = s.
Proof.
  induction history as [|ev history IH] using rev_ind; [discriminate|].
  rewrite reached_snoc.
  assert (∀ o, Completes p o ∈ history → Completes p o ∈ history ++ [ev]) as Hold
    by (intros o Ho; apply elem_of_app; auto).
  assert (promises (reached history) !! p = Some s → s ≠ Pending →
          ∃ o, Completes p o ∈ history ++ [ev] ∧ outcome_state o = s) as IH'.
  { intros Hp Hs. destruct (IH Hp Hs) as (o & Ho & Hos). eauto. }
  destruct ev as [a k preview q|r o]; cbn [step].
  - rewrite client_call_world. cbn [promises snd].
    intros [Hp|[_ Hp]]%lookup_app_Some Hs; [by apply IH'|].
    apply list_lookup_singleton_Some in Hp as [_ <-]. congruence.
  - destruct (network (reached history) !! r) as [rq|] eqn:Hr;
      [|rewrite complete_closed by auto; exact IH'].
    destruct (decide (r ∈ completed (reached history))) as [Hin|Hin];
      [rewrite complete_closed by auto; exact IH'|].
    rewrite (complete_open r o _ rq Hr Hin).
    rewrite (paired_callback _ r rq (paired_reached history) Hr).
    rewrite promises_after_callback. cbn [promises mark_completed].
    destruct (decide (p = r)) as [->|Hne];
      [|rewrite apply_outcome_other by exact Hne; exact IH'].
    unfold apply_outcome, PromiseId in *.
    destruct (promises (reached history) !! r) as [[]|] eqn:Hp;
      [|first [exact IH'|rewrite Hp; exact IH']..|].
    2: first [exact IH'|rewrite Hp; exact IH'].
    rewrite list_lookup_insert_eq by (eapply lookup_lt_Some; eassumption).
    intros [= <-] _. exists o. split; [|reflexivity].
    apply elem_of_app. right. apply list_elem_of_singleton. reflexivity.
Qed.

Lemma settled_by_own_exchange_witness :
  ∃ o : Outcome,
    Completes 0 o ∈ [Calls "app-123" "key-abc" false "book a flight to Paris";
                     Completes 0 (Response (mkResponse 401 "Access Denied" [])
                                           access_denied_body)]
    ∧ outcome_state o = Fulfilled access_denied_value.
Proof.
  apply (settled_by_own_exchange
           [Calls "app-123" "key-abc" false "book a flight to Paris";
            Completes 0 (Response (mkResponse 401 "Access Denied" [])
                                  access_denied_body)]
           0 (Fulfilled access_denied_value)).
  - reflexivity.
  - discriminate.
Defined.

Lemma step_uncaught (w : World) (ev : Event) :
  ∃ n : nat,
    (n ≤ (if is_unparseable ev then 1 else 0))%nat
    ∧ uncaught (step w ev)
      = uncaught w ++ replicate n (SyntaxError "Unexpected token in JSON").
Proof.
  destruct ev as [a k preview q|r o]; cbn [step].
  - exists 0. rewrite client_call_world. cbn. rewrite app_nil_r. auto.
  - destruct (network w !! r) as [rq|] eqn:Hr;
      [|exists 0; rewrite complete_closed by auto; cbn; rewrite app_nil_r; split; [lia|done]].
    destruct (decide (r ∈ completed w)) as [Hin|Hin];
      [exists 0; rewrite complete_closed by auto; cbn; rewrite app_nil_r; split; [lia|done]|].
    rewrite (complete_open r o w rq Hr Hin).
    destruct o as [e|rsp body]; unfold after_callback, is_unparseable.
    + exists 0. unfold reject. rewrite settle_uncaught. cbn. rewrite app_nil_r.
      split; [lia|done].
    + destruct (JSON.parse body) as [v|].
      * exists 0. unfold resolve. rewrite settle_uncaught. cbn. rewrite app_nil_r.
        split; [lia|done].
      * exists 1. split; [lia|reflexivity].
Qed.

Lemma count_unparseable_cons (ev : Event) (events : list Event) :
  count_unparseable (ev :: events)
    = (if is_unparseable ev then 1 else 0) + count_unparseable events.
Proof. unfold count_unparseable. cbn. by destruct (is_unparseable ev). Qed.

Lemma run_uncaught (events : list Event) (w : World) :
  ∃ n : nat,
    (n ≤ count_unparseable events)%nat
    ∧ uncaught (run events w)
      = uncaught w ++ replicate n (SyntaxError "Unexpected token in JSON").
Proof.
  revert w. induction events as [|ev events IH]; intros w.
  - exists 0. cbn. rewrite app_nil_r. split; [lia|reflexivity].
  - rewrite run_cons, count_unparseable_cons.
    destruct (IH (step w ev)) as (n & Hn & Hrun).
    destruct (step_uncaught w ev) as (m & Hm & Hstep).
    exists (m + n). split; [lia|].
    rewrite Hrun, Hstep, <- app_assoc, replicate_add. reflexivity.
Qed.

Lemma run_callback_completion (cb : Callback) (error : option JSError)
    (response : option IncomingMessage) (body : option string) (w : World) :
  fst (run_callback cb error response body w)
    = match error with
      | Some _ => Normal ()
      | Datatypes.None =>
          match JSON.parse (ToString body) with
          | Some _ => Normal ()
          | Datatypes.None => Throw (SyntaxError "Unexpected token in JSON")
          end
      end.
Proof.
  destruct cb as [p]. unfold run_callback.
  destruct error as [e|].
  - unfold reject. rewrite settle_returns. reflexivity.
  - unfold mbind, JS_bind, JSON_parse.
    destruct (JSON.parse (ToString body)) as [v|]; [|reflexivity].
    cbn. unfold resolve. rewrite settle_returns. reflexivity.
Qed.

Lemma complete_uncaught (r : nat) (o : Outcome) (w : World) :
  is_unparseable (Completes r o) = true ∨ uncaught (complete r o w) = uncaught w.
Proof.
  destruct (step_uncaught w (Completes r o)) as (n & Hn & Hstep).
  destruct (is_unparseable (Completes r o)); [by left|right].
  assert (n = 0) as -> by lia.
  cbn [step] in Hstep. rewrite Hstep. cbn. apply app_nil_r.
Qed.

(** X9: the only exception that ever leaves this code is the
    [SyntaxError] of [JSON.parse], thrown in the callback.  A call through
    either operation returns its promise and throws nothing.  The callback
    returns normally when it is given an error and when the body parses,
    and throws the [SyntaxError] exactly when there is no error and the
    body does not parse; so the end of an exchange in a transport error
    leaves no uncaught exception, and neither does a response unless its
    body does not parse.  In every reachable world all uncaught exceptions
    are [SyntaxError]s, and there are no more of them than exchanges that
    ended with a body that does not parse. *)
Theorem only_syntax_errors_escape (history : list Event) :
  (∀ (a k : string) (preview : bool) (q : string) (w : World),
     fst (client_call a k preview q w) = Normal (next_promise w)
     ∧ uncaught (snd (client_call a k preview q w)) = uncaught w)
  ∧ (∀ (cb : Callback) (e : JSError) (response : option IncomingMessage)
       (body : option string) (w : World),
       fst (run_callback cb (Some e) response body w) = Normal ())
  ∧ (∀ (cb : Callback) (response : option IncomingMessage) (body : string) (w : World),
       fst (run_callback cb Datatypes.None response (Some body) w)
         = match JSON.parse body with
           | Some _ => Normal ()
           | Datatypes.None => Throw (SyntaxError "Unexpected token in JSON")
           end)
  ∧ (∀ (r : nat) (e : JSError) (w : World),
       uncaught (complete r (TransportError e) w) = uncaught w)
  ∧ (∀ (r : nat) (response : IncomingMessage) (body : string) (w : World),
       JSON.parse body = Datatypes.None
       ∨ uncaught (complete r (Response response body) w) = uncaught w)
  ∧ Forall (λ e, err_name e = "SyntaxError") (uncaught (reached history))
  ∧ (length (uncaught (reached history)) ≤ count_unparseable history)%nat.
Proof.
  split; [by intros a k preview q w; rewrite client_call_world|].
  split; [intros cb e response body w; apply run_callback_completion|].
  split;
    [intros cb response body w;
     exact (run_callback_completion cb Datatypes.None response (Some body) w)|].
  split.
  { intros r e w.
    destruct (complete_uncaught r (TransportError e) w) as [H|H]; [discriminate|exact H]. }
  split.
  { intros r response body w.
    destruct (complete_uncaught r (Response response body) w) as [H|H]; [left|by right].
    unfold is_unparseable in H. by destruct (JSON.parse body). }
  destruct (run_uncaught history initial) as (n & Hn & Hrun).
  fold (reached history) in Hrun. cbn in Hrun. rewrite Hrun. split.
  - apply Forall_replicate. reflexivity.
  - rewrite length_replicate. exact Hn.
Qed.

Lemma visible_complete (r : nat) (o : Outcome) (w : World) :
  paired w → visible (complete r o w) = complete_visible r o (visible w).
Proof.
  intros Hw. unfold complete_visible, visible.
  destruct (decide (is_Some (network w !! r) ∧ r ∉ completed w)) as [[[rq Hr] Hin]|Hno].
  - rewrite (complete_open r o w rq Hr Hin), (paired_callback w r rq Hw Hr).
    rewrite promises_after_callback, after_callback_network, after_callback_completed.
    reflexivity.
  - rewrite complete_closed; [reflexivity|].
    destruct (network w !! r) as [rq|]; [|by right].
    destruct (decide (r ∈ completed w)) as [Hin|Hin]; [by left|].
    exfalso. apply Hno. split; [by eexists|exact Hin].
Qed.

Lemma visible_call (a k : string) (preview : bool) (q : string) (w : World) :
  visible (snd (client_call a k preview q w))
    = (promises w ++ [Pending],
       network w ++ [mkRequest "GET" (endpoint preview) []
                               (ResponseCallback (length (promises w)))],
       completed w).
Proof. rewrite client_call_world. reflexivity. Qed.

Lemma visible_step (w1 w2 : World) (ev : Event) :
  paired w1 → paired w2 → visible w1 = visible w2 →
  visible (step w1 ev) = visible (step w2 ev).
Proof.
  intros H1 H2 Heq. destruct ev as [a k preview q|r o]; cbn [step].
  - rewrite !visible_call. unfold visible in Heq. by injection Heq as -> -> ->.
  - rewrite !visible_complete by assumption. by rewrite Heq.
Qed.

Lemma visible_run (events : list Event) (w1 w2 : World) :
  paired w1 → paired w2 → visible w1 = visible w2 →
  visible (run events w1) = visible (run events w2).
Proof.
  revert w1 w2. induction events as [|ev events IH]; intros w1 w2 H1 H2 Heq; [exact Heq|].
  rewrite !run_cons. apply IH; [by apply paired_step..|by apply visible_step].
Qed.

Lemma open_after_other (r r' : nat) (c : gset nat) :
  r ≠ r' → r ∉ {[r']} ∪ c ↔ r ∉ c.
Proof.
  intros Hne. rewrite not_elem_of_union, not_elem_of_singleton. tauto.
Qed.

Lemma complete_visible_open (r : nat) (o : Outcome)
    (ps : list PromiseState) (n : list HttpRequest) (c : gset nat) :
  is_Some (n !! r) → r ∉ c →
  complete_visible r o (ps, n, c) = (apply_outcome r o ps, n, {[r]} ∪ c).
Proof. intros Hs Hc. unfold complete_visible. by rewrite decide_True. Qed.

Lemma complete_visible_closed (r : nat) (o : Outcome)
    (ps : list PromiseState) (n : list HttpRequest) (c : gset nat) :
  ¬ (is_Some (n !! r) ∧ r ∉ c) → complete_visible r o (ps, n, c) = (ps, n, c).
Proof. intros Hno. unfold complete_visible. by rewrite decide_False. Qed.

Lemma complete_visible_comm (r1 r2 : nat) (o1 o2 : Outcome)
    (v : list PromiseState * list HttpRequest * gset nat) :
  r1 ≠ r2 →
  complete_visible r1 o1 (complete_visible r2 o2 v)
    = complete_visible r2 o2 (complete_visible r1 o1 v).
Proof.
  intros Hne. destruct v as [[ps n] c].
  assert (r2 ≠ r1) as Hne' by congruence.
  destruct (decide (is_Some (n !! r2) ∧ r2 ∉ c)) as [[Hs2 Hc2]|Hno2];
    destruct (decide (is_Some (n !! r1) ∧ r1 ∉ c)) as [[Hs1 Hc1]|Hno1].
  - rewrite (complete_visible_open r2), (complete_visible_open r1 o1 ps) by assumption.
    rewrite !complete_visible_open by (assumption || by apply open_after_other).
    rewrite apply_outcome_comm by exact Hne.
    f_equal. rewrite !(assoc_L (∪)), (comm_L (∪) {[r1]} {[r2]}). reflexivity.
  - rewrite (complete_visible_closed r1 o1 ps) by assumption.
    rewrite (complete_visible_open r2) by assumption.
    apply complete_visible_closed.
    intros [? ?%open_after_other]; [apply Hno1; by split|exact Hne].
  - rewrite (complete_visible_closed r2 o2 ps) by assumption.
    rewrite (complete_visible_open r1) by assumption.
    symmetry. apply complete_visible_closed.
    intros [? ?%open_after_other]; [apply Hno2; by split|exact Hne'].
  - rewrite (complete_visible_closed r2 o2 ps), (complete_visible_closed r1 o1 ps)
      by assumption.
    by rewrite complete_visible_closed.
Qed.

(** X10: exchanges may end in any order.  When two different exchanges
    end one after the other, the promises, the requests and the set of
    ended exchanges are the same whichever ended first, and remain the same
    under all later events. *)
Theorem exchanges_may_end_in_any_order (history later : list Event)
    (r1 r2 : nat) (o1 o2 : Outcome) :
  r1 ≠ r2 →
  visible (run (Completes r1 o1 :: Completes r2 o2 :: later) (reached history))
    = visible (run (Completes r2 o2 :: Completes r1 o1 :: later) (reached history)).
Proof.
  intros Hne. rewrite !run_cons.
  pose proof (paired_reached history) as Hw.
  apply visible_run; [by do 2 apply paired_step..|].
  cbn [step].
  rewrite !visible_complete by (try apply (paired_step _ (Completes _ _)); exact Hw).
  by apply complete_visible_comm.
Qed.

Lemma exchanges_may_end_in_any_order_witness :
  visible
    (run (Completes 0 (TransportError (Error "connect ECONNREFUSED"))
            :: Completes 1 (Response (mkResponse 200 "OK" []) "[]")
            :: [Calls "app-123" "key-abc" false "third"])
         (reached [Calls "app-123" "key-abc" false "first";
                   Calls "other-app" "other-key" true "second"]))
  = visible
      (run (Completes 1 (Response (mkResponse 200 "OK" []) "[]")
              :: Completes 0 (TransportError (Error "connect ECONNREFUSED"))
              :: [Calls "app-123" "key-abc" false "third"])
           (reached [Calls "app-123" "key-abc" false "first";
                     Calls "other-app" "other-key" true "second"])).
Proof.
  apply (exchanges_may_end_in_any_order
           [Calls "app-123" "key-abc" false "first";
            Calls "other-app" "other-key" true "second"]
           [Calls "app-123" "key-abc" false "third"]
           0 1 (TransportError (Error "connect ECONNREFUSED"))
           (Response (mkResponse 200 "OK" []) "[]")).
  lia.
Defined.

Lemma apply_outcome_length (p : PromiseId) (o : Outcome) (ps : list PromiseState) :
  length (apply_outcome p o ps) = length ps.
Proof.
  unfold apply_outcome. destruct (ps !! p) as [[]|]; rewrite ?length_insert; reflexivity.
Qed.

(** The state of every promise, from the events so far: pending with its
    exchange under way, or as the outcome of its ended exchange says. *)
Lemma promise_status (history : list Event) (p : PromiseId) :
  p < length (promises (reached history)) →
  ((p ∉ completed (reached history))
   ∧ promises (reached history) !! p = Some Pending)
  ∨ (p ∈ completed (reached history)
     ∧ ∃ o : Outcome,
         Completes p o ∈ history
         ∧ promises (reached history) !! p = Some (outcome_state o)).
Proof.
  induction history as [|ev history IH] using rev_ind; [cbn; lia|].
  pose proof (paired_reached history) as Hpaired.
  pose proof (wf_run history initial wf_initial) as Hwf.
  fold (reached history) in Hwf.
  assert (p < length (promises (reached history)) →
          ((p ∉ completed (reached history))
           ∧ promises (reached history) !! p = Some Pending)
          ∨ (p ∈ completed (reached history)
             ∧ ∃ o, Completes p o ∈ history ++ [ev]
                    ∧ promises (reached history) !! p = Some (outcome_state o)))
    as IH'.
  { intros Hp. destruct (IH Hp) as [?|(Hin & o & Ho & Hs)]; [by left|].
    right. split; [exact Hin|]. exists o. split; [|exact Hs].
    apply elem_of_app. by left. }
  rewrite reached_snoc.
  destruct ev as [a k preview q|r o]; cbn [step].
  - rewrite client_call_world. cbn [promises completed snd]. rewrite length_app.
    cbn [length]. intros Hp.
    destruct (decide (p < length (promises (reached history)))) as [Hlt|Hge].
    + rewrite lookup_app_l by exact Hlt. by apply IH'.
    + assert (p = length (promises (reached history))) as -> by lia.
      left. split; [|by apply list_lookup_middle].
      intros Hin. apply (wf_completed _ Hwf) in Hin.
      destruct Hpaired as [Hlen _]. lia.
  - destruct (network (reached history) !! r) as [rq|] eqn:Hr;
      [|rewrite complete_closed by auto; exact IH'].
    destruct (decide (r ∈ completed (reached history))) as [Hin|Hin];
      [rewrite complete_closed by auto; exact IH'|].
    rewrite (complete_open r o _ rq Hr Hin).
    rewrite (paired_callback _ r rq Hpaired Hr).
    rewrite promises_after_callback, after_callback_completed.
    cbn [promises completed mark_completed].
    intros Hp.
    assert (p < length (promises (reached history))) as Hp'.
    { by rewrite apply_outcome_length in Hp. }
    destruct (decide (p = r)) as [->|Hne].
    + right. split; [apply elem_of_union_l, elem_of_singleton; reflexivity|].
      exists o. split.
      { apply elem_of_app. right. apply list_elem_of_singleton. reflexivity. }
      destruct (IH' Hp') as [[_ Hs]|[Hin' _]]; [|contradiction].
      unfold apply_outcome. rewrite Hs.
      apply list_lookup_insert_eq. exact Hp'.
    + rewrite apply_outcome_other by exact Hne.
      destruct (IH' Hp') as [[Hout Hs]|[Hin' Hs]].
      * left. split; [by apply open_after_other|exact Hs].
      * right. split; [by apply elem_of_union_r|exact Hs].
Qed.

(** X11: a promise whose exchange has ended is still pending only if the
    response of that exchange carried a body that [JSON.parse] does not
    accept.  After a transport error or a body that parses, the promise is
    settled. *)
Theorem pending_after_end_means_unparseable (history : list Event) (p : PromiseId) :
  p ∈ completed (reached history) →
  promises (reached history) !! p = Some Pending →
  ∃ (response : IncomingMessage) (body : string),
    Completes p (Response response body) ∈ history
    ∧ JSON.parse body = Datatypes.None.
Proof.
  intros Hin Hpending.
  destruct (promise_status history p) as [[Hout _]|(_ & o & Ho & Hs)].
  - eapply lookup_lt_Some. exact Hpending.
  - contradiction.
  - rewrite Hpending in Hs. destruct o as [e|response body]; [discriminate|].
    exists response, body. split; [exact Ho|].
    unfold outcome_state in Hs. by destruct (JSON.parse body).
Qed.

Lemma pending_after_end_means_unparseable_witness :
  ∃ (response : IncomingMessage) (body : string),
    Completes 0 (Response response body)
      ∈ [Calls "app-123" "key-abc" true "book a flight to Paris";
         Completes 0 (Response (mkResponse 503 "Service Unavailable" [])
                               "<html>Service Unavailable</html>")]
    ∧ JSON.parse body = Datatypes.None.
Proof.
  apply (pending_after_end_means_unparseable
           [Calls "app-123" "key-abc" true "book a flight to Paris";
            Completes 0 (Response (mkResponse 503 "Service Unavailable" [])
                                  "<html>Service Unavailable</html>")]
           0).
  - vm_compute. reflexivity.
  - reflexivity.
Defined.
